(** * A recursive sphere ray tracer: embedding and properties

    The repository has two copies of the engine: the baseline
    (src/src/main.cpp) and the optimised one (src/raytracer.cpp).  Both are
    embedded here; where they share a function the embedding takes the
    [variant] as an argument and branches exactly where the two files differ.

    Numbers.  A C++ [double] is read as a real number: rounding, overflow and
    NaN are outside this development.  [numeric_limits<double>::max()], the
    start value of the closest-hit scan, is the real [DBL_MAX] it denotes;
    where a property needs a value to be in the range of [double], it says
    so.  An [int] or [size_t] that indexes a vector or counts recursion depth
    stays far from its bounds and is read as [Z] or [nat]; the pixel packing
    keeps the wrap-around of [int], [Uint8] and [Uint32].  The one place
    where rounding decides a property, the comparison of the two forms of
    [Sphere::intersect], is embedded a second time on binary64 numbers, in
    the module [Binary64].

    Control.  [Scene::trace] calls itself; its embedding [trace_fuel] counts
    the nested activations it is allowed, and [trace_terminates] shows that
    four are enough.  The [omp parallel for] of [Renderer::render] is
    embedded as the set of orders in which the stores of the worker threads
    can reach the pixel buffer; the progress line it prints is left out. *)

From Stdlib Require Import Reals Lra Lia ZArith List Bool Permutation.
From Stdlib Require PrimFloat.
From stdpp Require Import base list.

Open Scope R_scope.

(** ** Vec3 *)

Record Vec3 : Type := mkVec3 { x : R; y : R; z : R }.

Definition Color : Type := Vec3.

Definition Vec3_add (u v : Vec3) : Vec3 :=
  mkVec3 (x u + x v) (y u + y v) (z u + z v).

Definition Vec3_sub (u v : Vec3) : Vec3 :=
  mkVec3 (x u - x v) (y u - y v) (z u - z v).

Definition Vec3_mul (u : Vec3) (t : R) : Vec3 :=
  mkVec3 (x u * t) (y u * t) (z u * t).

Definition Vec3_div (u : Vec3) (t : R) : Vec3 :=
  mkVec3 (x u / t) (y u / t) (z u / t).

Definition Vec3_dot (u v : Vec3) : R :=
  x u * x v + y u * y v + z u * z v.

Definition Vec3_cross (u v : Vec3) : Vec3 :=
  mkVec3 (y u * z v - z u * y v) (z u * x v - x u * z v) (x u * y v - y u * x v).

Definition Vec3_length (u : Vec3) : R :=
  sqrt (x u * x u + y u * y u + z u * z u).

Definition Vec3_lengthSquared (u : Vec3) : R :=
  x u * x u + y u * y u + z u * z u.

Definition Vec3_zero : Vec3 := mkVec3 0 0 0.

(** [len > 0 ? *this / len : Vec3(0, 0, 0)] *)
Definition Vec3_normalize (u : Vec3) : Vec3 :=
  let len := Vec3_length u in
  if Rgt_dec len 0 then Vec3_div u len else Vec3_zero.

(** [*this - normal * 2 * this->dot(normal)] *)
Definition Vec3_reflect (u normal : Vec3) : Vec3 :=
  Vec3_sub u (Vec3_mul (Vec3_mul normal 2) (Vec3_dot u normal)).

(** ** Ray *)

Record Ray : Type := mkRay { origin : Vec3; direction : Vec3 }.

(** The constructor [Ray(o, d) : origin(o), direction(d.normalize())]. *)
Definition Ray_new (o d : Vec3) : Ray :=
  mkRay o (Vec3_normalize d).

Definition Ray_at (r : Ray) (t : R) : Vec3 :=
  Vec3_add (origin r) (Vec3_mul (direction r) t).

(** ** Material, Sphere, Light *)

Record Material : Type := mkMaterial {
  Material_color : Color;
  ambient : R;
  diffuse : R;
  specular : R;
  shininess : R;
  reflectivity : R
}.

Record Sphere : Type := mkSphere {
  center : Vec3;
  radius : R;
  material : Material
}.

Record Light : Type := mkLight {
  Light_position : Vec3;
  Light_color : Color;
  intensity : R
}.

(** The two copies of the engine. *)
Inductive variant : Type :=
  | baseline    (* src/src/main.cpp *)
  | optimized.  (* src/raytracer.cpp *)

(** The self-intersection bias, written [0.001] at each use in the source. *)
Definition EPS : R := 0.001.

(** [Sphere::intersect] of src/src/main.cpp: the general quadratic.  The
    result is [Some t] when the source returns [true] after writing [t], and
    [None] when it returns [false]. *)
Definition Sphere_intersect_quadratic (s : Sphere) (ray : Ray) : option R :=
  let oc := Vec3_sub (origin ray) (center s) in
  let a := Vec3_dot (direction ray) (direction ray) in
  let b := 2 * Vec3_dot oc (direction ray) in
  let c := Vec3_dot oc oc - radius s * radius s in
  let discriminant := b * b - 4 * a * c in
  if Rlt_dec discriminant 0 then None
  else
    let t1 := (- b - sqrt discriminant) / (2 * a) in
    let t2 := (- b + sqrt discriminant) / (2 * a) in
    if Rgt_dec t1 EPS then Some t1
    else if Rgt_dec t2 EPS then Some t2
    else None.

(** [Sphere::intersect] of src/raytracer.cpp: the half-b form, which takes
    [a = 1] for granted. *)
Definition Sphere_intersect_half_b (s : Sphere) (ray : Ray) : option R :=
  let oc := Vec3_sub (origin ray) (center s) in
  let b_half := Vec3_dot oc (direction ray) in
  let c := Vec3_lengthSquared oc - radius s * radius s in
  let discriminant := b_half * b_half - c in
  if Rlt_dec discriminant 0 then None
  else
    let sqrt_disc := sqrt discriminant in
    let t1 := - b_half - sqrt_disc in
    if Rgt_dec t1 EPS then Some t1
    else
      let t2 := - b_half + sqrt_disc in
      if Rgt_dec t2 EPS then Some t2
      else None.

Definition Sphere_intersect (v : variant) (s : Sphere) (ray : Ray) : option R :=
  match v with
  | baseline => Sphere_intersect_quadratic s ray
  | optimized => Sphere_intersect_half_b s ray
  end.

Definition Sphere_getNormal (s : Sphere) (point : Vec3) : Vec3 :=
  Vec3_normalize (Vec3_sub point (center s)).

(** ** Comparisons and library functions on doubles *)

Definition Rltb (a b : R) : bool := if Rlt_dec a b then true else false.
Definition Rgtb (a b : R) : bool := if Rgt_dec a b then true else false.

(** [std::max(a, b)] is [(a < b) ? b : a] and [std::min(a, b)] is
    [(b < a) ? b : a]. *)
Definition std_max (a b : R) : R := if Rlt_dec a b then b else a.
Definition std_min (a b : R) : R := if Rlt_dec b a then b else a.

(** [numeric_limits<double>::max()] = (2^53 - 1) * 2^971. *)
Definition DBL_MAX : R := IZR ((2 ^ 53 - 1) * 2 ^ 971).

(** ** Scene *)

Record Scene : Type := mkScene {
  spheres : list Sphere;
  lights : list Light;
  background : Color
}.

(** The body of the [for] loop of [Scene::intersect], from index [i] on, over
    the spheres not yet visited; the state is [(closest_t, hit_idx)]. *)
Fixpoint Scene_intersect_loop (v : variant) (ss : list Sphere) (i : nat)
    (ray : Ray) (closest_t : R) (hit_idx : Z) : R * Z :=
  match ss with
  | [] => (closest_t, hit_idx)
  | s :: rest =>
      match Sphere_intersect v s ray with
      | Some t =>
          if Rltb t closest_t
          then Scene_intersect_loop v rest (S i) ray t (Z.of_nat i)
          else Scene_intersect_loop v rest (S i) ray closest_t hit_idx
      | None => Scene_intersect_loop v rest (S i) ray closest_t hit_idx
      end
  end.

(** [Scene::intersect]: the returned [bool] with the final values of the two
    reference parameters [closest_t] and [hit_idx]. *)
Definition Scene_intersect (v : variant) (sc : Scene) (ray : Ray) : bool * R * Z :=
  let '(closest_t, hit_idx) :=
    Scene_intersect_loop v (spheres sc) 0 ray DBL_MAX (-1) in
  (negb (hit_idx =? -1)%Z, closest_t, hit_idx).

(** [Scene::intersectShadow], which only src/raytracer.cpp has. *)
Fixpoint Scene_intersectShadow_loop (ss : list Sphere) (ray : Ray)
    (max_distance : R) : bool :=
  match ss with
  | [] => false
  | sphere :: rest =>
      match Sphere_intersect optimized sphere ray with
      | Some t =>
          if Rgtb t EPS && Rltb t max_distance then true
          else Scene_intersectShadow_loop rest ray max_distance
      | None => Scene_intersectShadow_loop rest ray max_distance
      end
  end.

Definition Scene_intersectShadow (sc : Scene) (ray : Ray) (max_distance : R) : bool :=
  Scene_intersectShadow_loop (spheres sc) ray max_distance.

(** The shadow test that [trace] makes for a light, given the unit vector
    [light_dir] from the hit point to the light: the baseline asks the
    closest-hit query and does not look at the distance to the light, the
    optimised copy asks the any-hit query bounded by [light_distance]. *)
Definition in_shadow (v : variant) (sc : Scene) (hit_point : Vec3)
    (light : Light) (light_dir : Vec3) : bool :=
  match v with
  | baseline =>
      let shadow_ray := Ray_new hit_point light_dir in
      fst (fst (Scene_intersect baseline sc shadow_ray))
  | optimized =>
      let light_distance := Vec3_length (Vec3_sub (Light_position light) hit_point) in
      Scene_intersectShadow sc (Ray_new hit_point light_dir) light_distance
  end.

(** How [trace] combines the colour of the reflected ray with the local one:
    [color + reflect_color * reflectivity] in the baseline,
    [color * (1.0 - refl) + reflect_color * refl] in the optimised copy. *)
Definition combine_reflection (v : variant) (color reflect_color : Color)
    (refl : R) : Color :=
  match v with
  | baseline => Vec3_add color (Vec3_mul reflect_color refl)
  | optimized =>
      Vec3_add (Vec3_mul color (1 - refl)) (Vec3_mul reflect_color refl)
  end.

Definition MAX_DEPTH : Z := 3.

Section Shading.

(** [pow] of <cmath>, which the repository does not define. *)
Variable pow : R -> R -> R.

(** One iteration of the loop over the lights in [trace]. *)
Definition shade_light (v : variant) (sc : Scene) (sphere : Sphere)
    (hit_point normal view_dir : Vec3) (color : Color) (light : Light) : Color :=
  let light_dir := Vec3_normalize (Vec3_sub (Light_position light) hit_point) in
  if in_shadow v sc hit_point light light_dir then color
  else
    let m := material sphere in
    let diff := std_max 0 (Vec3_dot normal light_dir) in
    let diffuse_c :=
      Vec3_mul (Vec3_mul (Vec3_mul (Material_color m) (diffuse m)) diff)
               (intensity light) in
    let reflect_dir := Vec3_reflect (Vec3_mul light_dir (-1)) normal in
    let spec := pow (std_max 0 (Vec3_dot view_dir reflect_dir)) (shininess m) in
    let specular_c :=
      Vec3_mul (Vec3_mul (Vec3_mul (Light_color light) (specular m)) spec)
               (intensity light) in
    Vec3_add color (Vec3_add diffuse_c specular_c).

(** The colour accumulated before the reflection step: the ambient term and
    the contribution of each light. *)
Definition local_color (v : variant) (sc : Scene) (sphere : Sphere)
    (hit_point normal view_dir : Vec3) : Color :=
  fold_left (shade_light v sc sphere hit_point normal view_dir) (lights sc)
    (Vec3_mul (Material_color (material sphere)) (ambient (material sphere))).

(** The ray that [trace] follows for the mirror reflection at a hit. *)
Definition reflect_ray (hit_point normal view_dir : Vec3) : Ray :=
  Ray_new hit_point (Vec3_reflect (Vec3_mul view_dir (-1)) normal).

(** [Scene::trace], with the number of nested activations limited by [fuel].
    [None] means that the fuel ran out or that [spheres[hit_idx]] was out of
    range, which the source leaves undefined. *)
Fixpoint trace_fuel (fuel : nat) (v : variant) (sc : Scene) (ray : Ray)
    (depth : Z) : option Color :=
  match fuel with
  | O => None
  | S fuel' =>
      if (depth >? MAX_DEPTH)%Z then Some (background sc)
      else
        match Scene_intersect v sc ray with
        | (false, _, _) => Some (background sc)
        | (true, t, hit_idx) =>
            match spheres sc !! Z.to_nat hit_idx with
            | None => None
            | Some sphere =>
                let hit_point := Ray_at ray t in
                let normal := Sphere_getNormal sphere hit_point in
                let view_dir := Vec3_normalize (Vec3_sub (origin ray) hit_point) in
                let color := local_color v sc sphere hit_point normal view_dir in
                if Rgtb (reflectivity (material sphere)) 0 && (depth <? MAX_DEPTH)%Z
                then
                  match trace_fuel fuel' v sc
                          (reflect_ray hit_point normal view_dir) (depth + 1) with
                  | None => None
                  | Some reflect_color =>
                      Some (combine_reflection v color reflect_color
                              (reflectivity (material sphere)))
                  end
                else Some color
            end
        end
  end.

(** Activations that [trace] can nest when entered at [depth]. *)
Definition trace_bound (depth : Z) : nat := S (Z.to_nat (MAX_DEPTH - depth)).

(** [Scene::trace].  The fallback colour is never used: see
    [trace_terminates]. *)
Definition Scene_trace (v : variant) (sc : Scene) (ray : Ray) (depth : Z) : Color :=
  default (background sc) (trace_fuel (trace_bound depth) v sc ray depth).

End Shading.

(** ** Output conversion *)

Definition clamp (c : Color) : Color :=
  mkVec3 (std_min 1 (std_max 0 (x c)))
         (std_min 1 (std_max 0 (y c)))
         (std_min 1 (std_max 0 (z c))).

(** Conversion of a [double] to an integer type drops the fractional part. *)
Definition truncate (d : R) : Z :=
  if Rle_dec 0 d then Int_part d else (- Int_part (- d))%Z.

(** [Uint8(d)], an [int] result brought back into the range of [int], and
    the conversion of an [int] to [Uint32]. *)
Definition Uint8 (d : R) : Z := (truncate d mod 2 ^ 8)%Z.
Definition wrap_int (n : Z) : Z := ((n + 2 ^ 31) mod 2 ^ 32 - 2 ^ 31)%Z.
Definition Uint32 (n : Z) : Z := (n mod 2 ^ 32)%Z.

(** [(0xFF << 24) | (r << 16) | (g << 8) | b], computed on [int] operands
    (the first shift leaves the range of [int] and wraps to a negative
    value) and stored in a [Uint32]. *)
Definition pack_pixel (pixel_color : Color) : Z :=
  let r := Uint8 (255.99 * x pixel_color) in
  let g := Uint8 (255.99 * y pixel_color) in
  let b := Uint8 (255.99 * z pixel_color) in
  Uint32 (Z.lor (Z.lor (Z.lor (wrap_int (Z.shiftl 255 24))
                              (wrap_int (Z.shiftl r 16)))
                       (wrap_int (Z.shiftl g 8))) b).

(** ** Camera *)

Record Camera : Type := mkCamera {
  Camera_position : Vec3;
  target : Vec3;
  up : Vec3;
  fov : R
}.

Definition Camera_getRay (cam : Camera) (u v aspect_ratio : R) : Ray :=
  let theta := fov cam * PI / 180 in
  let h := tan (theta / 2) in
  let viewport_height := 2 * h in
  let viewport_width := aspect_ratio * viewport_height in
  let w := Vec3_normalize (Vec3_sub (Camera_position cam) (target cam)) in
  let u_vec := Vec3_normalize (Vec3_cross (up cam) w) in
  let v_vec := Vec3_cross w u_vec in
  let horizontal := Vec3_mul u_vec viewport_width in
  let vertical := Vec3_mul v_vec viewport_height in
  let lower_left :=
    Vec3_sub (Vec3_sub (Vec3_sub (Camera_position cam) (Vec3_div horizontal 2))
                       (Vec3_div vertical 2)) w in
  let direction :=
    Vec3_sub (Vec3_add (Vec3_add lower_left (Vec3_mul horizontal u))
                       (Vec3_mul vertical v))
             (Camera_position cam) in
  Ray_new (Camera_position cam) direction.

(** ** Renderer *)

Section Render.

Variable pow : R -> R -> R.
Variable v : variant.
Variable scene : Scene.
Variable camera : Camera.
Variables width height : Z.

(** The body of the inner loop of [Renderer::render]: the value stored for
    the pixel in column [i] of row [j]. *)
Definition pixel_value (j i : Z) : Z :=
  let aspect_ratio := IZR width / IZR height in
  let u := IZR i / IZR (width - 1) in
  let v' := IZR (height - 1 - j) / IZR (height - 1) in
  let ray := Camera_getRay camera u v' aspect_ratio in
  let pixel_color := Scene_trace pow v scene ray 0 in
  pack_pixel (clamp pixel_color).

(** One store [pixels[j * width + i] = ...]: the cell and the value. *)
Definition pixel_write (j i : nat) : nat * Z :=
  (Z.to_nat (Z.of_nat j * width + Z.of_nat i),
   pixel_value (Z.of_nat j) (Z.of_nat i)).

(** The stores of the task for row [j], columns in increasing order. *)
Definition row_task (j : nat) : list (nat * Z) :=
  map (pixel_write j) (seq 0 (Z.to_nat width)).

(** The pixel buffer after a sequence of stores.  A store outside the buffer
    is undefined in the source and leaves the buffer as it is here; [render]
    makes none ([render_stores_in_range]). *)
Definition run_writes (ws : list (nat * Z)) (pixels : list Z) : list Z :=
  fold_left (fun buf w => <[fst w := snd w]> buf) ws pixels.

(** [Renderer::render] run by one thread: rows in increasing order. *)
Definition render (pixels : list Z) : list Z :=
  run_writes (concat (map row_task (seq 0 (Z.to_nat height)))) pixels.

(** What a worker thread executes when the [omp parallel for] hands it the
    rows [rows], in that order. *)
Definition worker_task (rows : list nat) : list (nat * Z) :=
  concat (map row_task rows).

End Render.

(** [interleaves ls l]: [l] merges the sequences [ls], each in its own order.
    With one sequence per worker thread this is the order in which the stores
    of a parallel run reach memory. *)
Inductive interleaves {A : Type} : list (list A) -> list A -> Prop :=
  | interleaves_done (ls : list (list A)) :
      Forall (fun l => l = []) ls -> interleaves ls []
  | interleaves_step (pre post : list (list A)) (a : A) (l rest : list A) :
      interleaves (pre ++ l :: post) rest ->
      interleaves (pre ++ (a :: l) :: post) (a :: rest).

(** A run of the row loop on [length chunks] workers: every row of the image
    is handed to exactly one worker, and the stores of the workers interleave
    into [ws]. *)
Definition parallel_run (pow : R -> R -> R) (v : variant) (scene : Scene)
    (camera : Camera) (width height : Z) (chunks : list (list nat))
    (ws : list (nat * Z)) : Prop :=
  Permutation (concat chunks) (seq 0 (Z.to_nat height)) /\
  interleaves (map (worker_task pow v scene camera width height) chunks) ws.

(** ** Scene construction *)

(** The [Scene()] constructor, [addSphere] and [addLight] ([push_back]). *)
Definition Scene_new : Scene := mkScene [] [] (mkVec3 0.1 0.1 0.15).

Definition Scene_addSphere (sc : Scene) (sphere : Sphere) : Scene :=
  mkScene (spheres sc ++ [sphere]) (lights sc) (background sc).

Definition Scene_addLight (sc : Scene) (light : Light) : Scene :=
  mkScene (spheres sc) (lights sc ++ [light]) (background sc).

(** ** Image coordinates of a pixel *)

(** The two coordinates that the inner loop of [Renderer::render] hands to
    [Camera::getRay] for column [i] and row [j]. *)
Definition pixel_u (width i : Z) : R := IZR i / IZR (width - 1).
Definition pixel_v (height j : Z) : R := IZR (height - 1 - j) / IZR (height - 1).

(** ** The test bench (src/ray_sphere_intersect_tb.cpp) *)

(** Q16.16 conversions: [SCALE = (1 << FRAC_BITS)] with [FRAC_BITS = 16],
    [static_cast<int32_t>(val * SCALE)] and [static_cast<double>(val) / SCALE].
    The cast drops the fraction.  C++ leaves it undefined when the integer
    does not fit 32 bits; the properties of [double_to_fixed] below are
    stated where it fits, and there [wrap_int] changes nothing. *)
Definition FRAC_BITS : Z := 16.
Definition SCALE : R := IZR (Z.shiftl 1 FRAC_BITS).

Definition double_to_fixed (val : R) : Z := wrap_int (truncate (val * SCALE)).
Definition fixed_to_double (val : Z) : R := IZR val / SCALE.

(** The lambda [software_intersect] of [compare_with_software]: the pair of
    the hit flag and the parameter, [{false, 0.0}] on a miss. *)
Definition software_intersect (ox oy oz dx dy dz cx cy cz radius : R) : bool * R :=
  let oc_x := ox - cx in
  let oc_y := oy - cy in
  let oc_z := oz - cz in
  let a := dx * dx + dy * dy + dz * dz in
  let b := 2 * (oc_x * dx + oc_y * dy + oc_z * dz) in
  let c := oc_x * oc_x + oc_y * oc_y + oc_z * oc_z - radius * radius in
  let discriminant := b * b - 4 * a * c in
  if Rlt_dec discriminant 0 then (false, 0)
  else
    let t1 := (- b - sqrt discriminant) / (2 * a) in
    if Rgt_dec t1 EPS then (true, t1)
    else
      let t2 := (- b + sqrt discriminant) / (2 * a) in
      if Rgt_dec t2 EPS then (true, t2)
      else (false, 0).

(** ** Window events *)

Section Events.

(** The SDL constants that [Renderer::handleEvents] compares with; SDL is not
    part of the repository. *)
Variables SDL_QUIT SDL_KEYDOWN SDLK_ESCAPE : Z.

(** The two fields of an [SDL_Event] that the code reads: [e.type] and
    [e.key.keysym.sym]. *)
Record SDL_Event : Type := mkEvent { event_type : Z; keysym_sym : Z }.

(** [Renderer::handleEvents] on the queue of pending events, from which
    [SDL_PollEvent] takes the first one: the result and the events left in
    the queue. *)
Fixpoint handleEvents (queue : list SDL_Event) : bool * list SDL_Event :=
  match queue with
  | [] => (true, [])
  | e :: rest =>
      if (event_type e =? SDL_QUIT)%Z then (false, rest)
      else if (event_type e =? SDL_KEYDOWN)%Z && (keysym_sym e =? SDLK_ESCAPE)%Z
           then (false, rest)
           else handleEvents rest
  end.

(** An event on which [handleEvents] returns [false]: the window was closed,
    or the escape key went down. *)
Definition closing_event (e : SDL_Event) : bool :=
  (event_type e =? SDL_QUIT)%Z
  || (event_type e =? SDL_KEYDOWN)%Z && (keysym_sym e =? SDLK_ESCAPE)%Z.

End Events.

(** ** The two intersection forms on binary64

    The part of both files that [Sphere::intersect] runs, with [double] as
    IEEE 754 binary64: every operation rounds to nearest, ties to even, one
    at a time and in the order in which the C++ expression evaluates (no
    fused multiply-add), and [sqrt] is correctly rounded.  The material of a
    sphere, which [intersect] does not read, is left out. *)

Module Binary64.
Import PrimFloat.
Local Open Scope float_scope.

Record Vec3 : Type := mkVec3 { x : float; y : float; z : float }.

Definition Vec3_sub (u v : Vec3) : Vec3 := mkVec3 (x u - x v) (y u - y v) (z u - z v).
Definition Vec3_div (u : Vec3) (t : float) : Vec3 := mkVec3 (x u / t) (y u / t) (z u / t).
Definition Vec3_dot (u v : Vec3) : float := x u * x v + y u * y v + z u * z v.
Definition Vec3_length (u : Vec3) : float := sqrt (x u * x u + y u * y u + z u * z u).
Definition Vec3_lengthSquared (u : Vec3) : float := x u * x u + y u * y u + z u * z u.

(** [len > 0 ? *this / len : Vec3(0, 0, 0)] *)
Definition Vec3_normalize (u : Vec3) : Vec3 :=
  let len := Vec3_length u in
  if 0 <? len then Vec3_div u len else mkVec3 0 0 0.

Record Ray : Type := mkRay { origin : Vec3; direction : Vec3 }.

(** The constructor [Ray(o, d)]. *)
Definition Ray_new (o d : Vec3) : Ray := mkRay o (Vec3_normalize d).

Record Sphere : Type := mkSphere { center : Vec3; radius : float }.

(** The [double] of the literal [0.001]. *)
Definition EPS : float := 0x1.0624dd2f1a9fcp-10.

(** [Sphere::intersect] of src/src/main.cpp. *)
Definition Sphere_intersect_quadratic (s : Sphere) (ray : Ray) : option float :=
  let oc := Vec3_sub (origin ray) (center s) in
  let a := Vec3_dot (direction ray) (direction ray) in
  let b := 2 * Vec3_dot oc (direction ray) in
  let c := Vec3_dot oc oc - radius s * radius s in
  let discriminant := b * b - 4 * a * c in
  if discriminant <? 0 then None
  else
    let t1 := (- b - sqrt discriminant) / (2 * a) in
    let t2 := (- b + sqrt discriminant) / (2 * a) in
    if EPS <? t1 then Some t1
    else if EPS <? t2 then Some t2
    else None.

(** [Sphere::intersect] of src/raytracer.cpp. *)
Definition Sphere_intersect_half_b (s : Sphere) (ray : Ray) : option float :=
  let oc := Vec3_sub (origin ray) (center s) in
  let b_half := Vec3_dot oc (direction ray) in
  let c := Vec3_lengthSquared oc - radius s * radius s in
  let discriminant := b_half * b_half - c in
  if discriminant <? 0 then None
  else
    let sqrt_disc := sqrt discriminant in
    let t1 := - b_half - sqrt_disc in
    if EPS <? t1 then Some t1
    else
      let t2 := - b_half + sqrt_disc in
      if EPS <? t2 then Some t2
      else None.

(** The [double] nearest to [1e-6]. *)
Definition TOLERANCE : float := 0x1.0c6f7a0b5ed8dp-20.

(** Agreement of the two forms as the specification words it for floating
    point: the same verdict, and on a hit parameters within [1e-6]. *)
Definition forms_agree (s : Sphere) (ray : Ray) : bool :=
  match Sphere_intersect_quadratic s ray, Sphere_intersect_half_b s ray with
  | Some t, Some t' => abs (t - t') <? TOLERANCE
  | None, None => true
  | _, _ => false
  end.

(** A sphere of radius 1.5 at the origin and the ray from (-0.75,-1.75,-1.5)
    towards (3,7,0): the line touches the sphere at (0,0,-1.5). *)
Definition tangent_sphere : Sphere := mkSphere (mkVec3 0 0 0) 1.5.
Definition tangent_ray : Ray := Ray_new (mkVec3 (-0.75) (-1.75) (-1.5)) (mkVec3 3 7 0).

(** The unit sphere at the origin and the ray from (-10,-80,-1) towards
    (1,8,0): the line touches the sphere at (0,0,-1). *)
Definition unit_sphere : Sphere := mkSphere (mkVec3 0 0 0) 1.
Definition far_tangent_ray : Ray := Ray_new (mkVec3 (-10) (-80) (-1)) (mkVec3 1 8 0).

End Binary64.

(** ** Notions used to state the properties *)

(** The direction of the ray has length one. *)
Definition unit_direction (ray : Ray) : Prop :=
  Vec3_dot (direction ray) (direction ray) = 1.

(** [t] solves the ray-sphere quadratic [a t^2 + b t + c = 0] with
    [a = direction . direction], [b = 2 (origin - center) . direction] and
    [c = |origin - center|^2 - radius^2]. *)
Definition quadratic_root (s : Sphere) (ray : Ray) (t : R) : Prop :=
  let oc := Vec3_sub (origin ray) (center s) in
  let a := Vec3_dot (direction ray) (direction ray) in
  let b := 2 * Vec3_dot oc (direction ray) in
  let c := Vec3_dot oc oc - radius s * radius s in
  a * (t * t) + b * t + c = 0.

(** The origin of the ray lies strictly inside the sphere. *)
Definition origin_inside (s : Sphere) (ray : Ray) : Prop :=
  Vec3_lengthSquared (Vec3_sub (origin ray) (center s)) < radius s * radius s.

(** The state of the closest-hit scan after the spheres [pre] have been
    visited: either nothing below [DBL_MAX] was met and the state is the
    initial one, or [hit_idx] is the first position in [pre] that attains
    the least parameter met, and [closest_t] is that parameter. *)
Definition scan_inv (v : variant) (ray : Ray) (pre : list Sphere)
    (closest_t : R) (hit_idx : Z) : Prop :=
  (hit_idx = (-1)%Z /\ closest_t = DBL_MAX /\
   forall (j : nat) s t, pre !! j = Some s ->
     Sphere_intersect v s ray = Some t -> DBL_MAX <= t) \/
  (exists (k : nat) s0,
     hit_idx = Z.of_nat k /\ pre !! k = Some s0 /\
     Sphere_intersect v s0 ray = Some closest_t /\ closest_t < DBL_MAX /\
     forall (j : nat) s t, pre !! j = Some s ->
       Sphere_intersect v s ray = Some t ->
       closest_t <= t /\ (t = closest_t -> (k <= j)%nat)).

(** Every parameter reported for [ray] by a sphere of the scene is below the
    largest [double], where the closest-hit scan starts. *)
Definition hits_in_range (v : variant) (sc : Scene) (ray : Ray) : Prop :=
  forall s t, In s (spheres sc) -> Sphere_intersect v s ray = Some t -> t < DBL_MAX.

(** The shadow verdict of a closest-hit-based check restricted to the
    interval (EPS, light_distance): ask [Scene::intersect] for the nearest
    hit and test that its parameter lies in the interval. *)
Definition closest_hit_shadow (v : variant) (sc : Scene) (ray : Ray)
    (light_distance : R) : bool :=
  let '(found, closest_t, _) := Scene_intersect v sc ray in
  found && Rgtb closest_t EPS && Rltb closest_t light_distance.

(** Every channel of the colour lies in [0, 1]. *)
Definition in_unit_range (c : Color) : Prop :=
  (0 <= x c <= 1) /\ (0 <= y c <= 1) /\ (0 <= z c <= 1).

(** A scene without lights whose materials and background are well formed:
    colour channels, ambient coefficient and reflectivity in [0, 1]. *)
Definition unlit_well_formed (sc : Scene) : Prop :=
  lights sc = [] /\ in_unit_range (background sc) /\
  forall s, In s (spheres sc) ->
    in_unit_range (Material_color (material s)) /\
    0 <= ambient (material s) <= 1 /\ 0 <= reflectivity (material s) <= 1.

(** ** Concrete inputs *)

(** The default [Material()] of the source. *)
Definition default_material : Material :=
  mkMaterial (mkVec3 1 1 1) 0.1 0.7 0.6 32 0.3.

(** The four cases of the test bench (src/ray_sphere_intersect_tb.cpp): the
    unit sphere at the origin with a ray that hits it, one that misses it and
    one that grazes it, and a sphere of radius 2 with a ray that starts at
    its centre. *)
Definition unit_sphere : Sphere := mkSphere (mkVec3 0 0 0) 1 default_material.

Definition axis_ray : Ray := mkRay (mkVec3 0 0 5) (mkVec3 0 0 (-1)).

Definition miss_ray : Ray := mkRay (mkVec3 5 0 0) (mkVec3 0 0 (-1)).

Definition grazing_ray : Ray := mkRay (mkVec3 0 1 5) (mkVec3 0 0 (-1)).

Definition radius2_sphere : Sphere := mkSphere (mkVec3 0 0 0) 2 default_material.

Definition inner_ray : Ray := mkRay (mkVec3 0 0 0) (mkVec3 1 0 0).

(** A scene that holds the unit sphere alone, with the background colour of
    the [Scene] constructor. *)
Definition unit_scene : Scene :=
  mkScene [unit_sphere] [] (mkVec3 0.1 0.1 0.15).

(** A white light of intensity 1 between the point (0,0,5) and the unit
    sphere. *)
Definition near_light : Light := mkLight (mkVec3 0 0 3) (mkVec3 1 1 1) 1.

(** A light behind the unit sphere, seen from (0,0,5). *)
Definition far_light : Light := mkLight (mkVec3 0 0 (-3)) (mkVec3 1 1 1) 1.

(** The camera of [main]: at (0,1,5), looking at the origin, with the
    default up vector and field of view. *)
Definition main_camera : Camera :=
  mkCamera (mkVec3 0 1 5) (mkVec3 0 0 0) (mkVec3 0 1 0) 60.

(** The stores of a run of a 2 x 2 image on two workers, the first holding
    row 1 and the second row 0, in an order in which the two alternate. *)
Definition two_worker_stores : list (nat * Z) :=
  let pw := pixel_write Rpower optimized unit_scene main_camera 2 2 in
  [pw 1%nat 0%nat; pw 0%nat 0%nat; pw 1%nat 1%nat; pw 0%nat 1%nat].

(** * Properties *)

(** ** Square roots and the half-b quadratic *)

Lemma sqrt_4_mult (D : R) : 0 <= D -> sqrt (4 * D) = 2 * sqrt D.
Proof.
  intros HD.
  rewrite sqrt_mult_alt by lra.
  replace 4 with (2 * 2) by lra.
  rewrite sqrt_square by lra. reflexivity.
Qed.

Lemma half_b_roots (bh c t : R) :
  0 <= bh * bh - c ->
  t * t + 2 * bh * t + c = 0 <->
  t = - bh - sqrt (bh * bh - c) \/ t = - bh + sqrt (bh * bh - c).
Proof.
  intros HD.
  pose proof (sqrt_sqrt _ HD) as Hs.
  set (s := sqrt (bh * bh - c)) in *.
  split.
  - intros Ht.
    assert (Hf : (t - (- bh - s)) * (t - (- bh + s)) = 0) by nra.
    apply Rmult_integral in Hf. destruct Hf; [left | right]; lra.
  - intros [-> | ->]; nra.
Qed.

Lemma half_b_no_root (bh c t : R) :
  bh * bh - c < 0 -> t * t + 2 * bh * t + c <> 0.
Proof.
  intros HD Ht. pose proof (Rle_0_sqr (t + bh)) as Hsq. unfold Rsqr in Hsq. nra.
Qed.

(** ** Vectors *)

Lemma Vec3_dot_lengthSquared (u : Vec3) : Vec3_dot u u = Vec3_lengthSquared u.
Proof. reflexivity. Qed.

Lemma Vec3_lengthSquared_nonneg (u : Vec3) : 0 <= Vec3_lengthSquared u.
Proof. unfold Vec3_lengthSquared. nra. Qed.

Lemma Vec3_length_zero_iff (u : Vec3) : Vec3_length u = 0 <-> u = Vec3_zero.
Proof.
  unfold Vec3_length. split.
  - intros H. apply sqrt_eq_0 in H; [| nra].
    destruct u as [a b c]; simpl in *. unfold Vec3_zero.
    pose proof (Rle_0_sqr a) as Ha. pose proof (Rle_0_sqr b) as Hb.
    pose proof (Rle_0_sqr c) as Hc. unfold Rsqr in Ha, Hb, Hc.
    assert (Ha0 : a * a = 0) by lra. assert (Hb0 : b * b = 0) by lra.
    assert (Hc0 : c * c = 0) by lra.
    apply Rsqr_0_uniq in Ha0, Hb0, Hc0. subst. reflexivity.
  - intros ->. simpl. replace (0 * 0 + 0 * 0 + 0 * 0) with 0 by lra. apply sqrt_0.
Qed.

Lemma Vec3_length_nonneg (u : Vec3) : 0 <= Vec3_length u.
Proof. apply sqrt_pos. Qed.

Lemma Vec3_length_div (u : Vec3) :
  0 < Vec3_length u -> Vec3_length (Vec3_div u (Vec3_length u)) = 1.
Proof.
  intros Hpos.
  assert (Hsq : Vec3_length u * Vec3_length u = Vec3_lengthSquared u).
  { unfold Vec3_length. apply sqrt_sqrt. apply Vec3_lengthSquared_nonneg. }
  set (len := Vec3_length u) in *.
  unfold Vec3_length at 1. unfold Vec3_div. simpl.
  replace (x u / len * (x u / len) + y u / len * (y u / len) + z u / len * (z u / len))
    with (Vec3_lengthSquared u / (len * len)).
  - rewrite <- Hsq. unfold Rdiv. rewrite Rinv_r by nra. apply sqrt_1.
  - unfold Vec3_lengthSquared. field. lra.
Qed.

Lemma Vec3_normalize_zero : Vec3_normalize Vec3_zero = Vec3_zero.
Proof.
  unfold Vec3_normalize.
  destruct (Rgt_dec (Vec3_length Vec3_zero) 0) as [H | H]; [| reflexivity].
  exfalso. assert (Vec3_length Vec3_zero = 0) by (apply Vec3_length_zero_iff; reflexivity).
  lra.
Qed.

Lemma Vec3_normalize_unit (u : Vec3) :
  u <> Vec3_zero -> Vec3_length (Vec3_normalize u) = 1.
Proof.
  intros Hu. unfold Vec3_normalize.
  pose proof (Vec3_length_nonneg u) as Hn.
  destruct (Rgt_dec (Vec3_length u) 0) as [H | H].
  - apply Vec3_length_div. lra.
  - exfalso. apply Hu. apply Vec3_length_zero_iff. lra.
Qed.

(** ** The two forms of [Sphere::intersect] *)

Lemma unit_direction_length (ray : Ray) :
  unit_direction ray <-> Vec3_length (direction ray) = 1.
Proof.
  unfold unit_direction, Vec3_length, Vec3_dot. split; intros H.
  - rewrite H. apply sqrt_1.
  - set (q := _ + _ + _) in *.
    assert (0 <= q) by (unfold q; nra).
    rewrite <- (sqrt_sqrt q) by assumption. rewrite H. lra.
Qed.

Lemma Ray_new_unit_direction (o d : Vec3) :
  d <> Vec3_zero -> unit_direction (Ray_new o d).
Proof.
  intros Hd. apply unit_direction_length. simpl. apply Vec3_normalize_unit, Hd.
Qed.

Lemma Sphere_intersect_forms (s : Sphere) (ray : Ray) :
  unit_direction ray ->
  Sphere_intersect_quadratic s ray = Sphere_intersect_half_b s ray.
Proof.
  unfold unit_direction, Sphere_intersect_quadratic, Sphere_intersect_half_b.
  intros ->. rewrite Vec3_dot_lengthSquared.
  set (oc := Vec3_sub (origin ray) (center s)).
  set (bh := Vec3_dot oc (direction ray)).
  set (c := Vec3_lengthSquared oc - radius s * radius s).
  replace (2 * bh * (2 * bh) - 4 * 1 * c) with (4 * (bh * bh - c)) by ring.
  set (D := bh * bh - c).
  destruct (Rlt_dec (4 * D) 0) as [H4 | H4], (Rlt_dec D 0) as [HD | HD];
    try reflexivity; try lra.
  rewrite sqrt_4_mult by lra.
  replace ((- (2 * bh) - 2 * sqrt D) / (2 * 1)) with (- bh - sqrt D) by field.
  replace ((- (2 * bh) + 2 * sqrt D) / (2 * 1)) with (- bh + sqrt D) by field.
  reflexivity.
Qed.

Lemma Sphere_intersect_variant (v : variant) (s : Sphere) (ray : Ray) :
  unit_direction ray ->
  Sphere_intersect v s ray = Sphere_intersect_half_b s ray.
Proof.
  intros Hu. destruct v; simpl; [apply Sphere_intersect_forms, Hu | reflexivity].
Qed.

(** ** Root selection *)

Lemma quadratic_root_unit (s : Sphere) (ray : Ray) (t : R) :
  unit_direction ray ->
  quadratic_root s ray t <->
  t * t + 2 * Vec3_dot (Vec3_sub (origin ray) (center s)) (direction ray) * t
    + (Vec3_lengthSquared (Vec3_sub (origin ray) (center s)) - radius s * radius s) = 0.
Proof.
  unfold unit_direction, quadratic_root. intros ->.
  rewrite Vec3_dot_lengthSquared. split; intros H; lra.
Qed.

(** The four ways through [Sphere::intersect] in its half-b form. *)
Lemma half_b_cases (s : Sphere) (ray : Ray) :
  let bh := Vec3_dot (Vec3_sub (origin ray) (center s)) (direction ray) in
  let c := Vec3_lengthSquared (Vec3_sub (origin ray) (center s)) - radius s * radius s in
  let D := bh * bh - c in
  (D < 0 /\ Sphere_intersect_half_b s ray = None) \/
  (0 <= D /\ - bh - sqrt D > EPS /\ Sphere_intersect_half_b s ray = Some (- bh - sqrt D)) \/
  (0 <= D /\ - bh - sqrt D <= EPS /\ - bh + sqrt D > EPS /\
     Sphere_intersect_half_b s ray = Some (- bh + sqrt D)) \/
  (0 <= D /\ - bh - sqrt D <= EPS /\ - bh + sqrt D <= EPS /\
     Sphere_intersect_half_b s ray = None).
Proof.
  intros bh c D. unfold Sphere_intersect_half_b. fold bh. fold c. fold D.
  destruct (Rlt_dec D 0) as [HD | HD]; [left; auto |].
  right. destruct (Rgt_dec (- bh - sqrt D) EPS) as [H1 | H1].
  - left. repeat split; [lra | assumption].
  - right. destruct (Rgt_dec (- bh + sqrt D) EPS) as [H2 | H2].
    + left. repeat split; lra.
    + right. repeat split; lra.
Qed.

Lemma EPS_pos : 0 < EPS.
Proof. unfold EPS. lra. Qed.

(** With a unit direction the quadratic is [t^2 + 2 b_half t + c = 0]: it has
    no root when [b_half^2 - c] is negative, and the two roots
    [- b_half -+ sqrt (b_half^2 - c)] otherwise. *)
Lemma unit_direction_roots (s : Sphere) (ray : Ray) :
  unit_direction ray ->
  let bh := Vec3_dot (Vec3_sub (origin ray) (center s)) (direction ray) in
  let c := Vec3_lengthSquared (Vec3_sub (origin ray) (center s)) - radius s * radius s in
  let D := bh * bh - c in
  (D < 0 -> forall t, ~ quadratic_root s ray t) /\
  (0 <= D -> forall t,
     quadratic_root s ray t <-> t = - bh - sqrt D \/ t = - bh + sqrt D).
Proof.
  intros Hu bh c D. split.
  - intros HD t Ht. apply (quadratic_root_unit s ray t Hu) in Ht.
    exact (half_b_no_root bh c t HD Ht).
  - intros HD t. rewrite (quadratic_root_unit s ray t Hu). apply half_b_roots, HD.
Qed.

(** C2. For a ray with unit direction, both copies of [Sphere::intersect]
    return [t] exactly when [t] is the least root of the ray-sphere quadratic
    that exceeds [EPS = 0.001]; they report a hit exactly when some root
    exceeds [EPS], and no hit exactly when every root is at most [EPS].  When
    the origin is strictly inside the sphere, a returned [t] is positive and
    the other root is negative: [t] is the exit point. *)
Theorem Sphere_intersect_root_selection (v : variant) (s : Sphere) (ray : Ray) :
  unit_direction ray ->
  (forall t, Sphere_intersect v s ray = Some t <->
     quadratic_root s ray t /\ t > EPS /\
     forall t', quadratic_root s ray t' -> t' > EPS -> t <= t') /\
  (is_Some (Sphere_intersect v s ray) <->
     exists t, quadratic_root s ray t /\ t > EPS) /\
  (Sphere_intersect v s ray = None <->
     forall t, quadratic_root s ray t -> t <= EPS) /\
  (origin_inside s ray ->
   forall t, Sphere_intersect v s ray = Some t ->
     0 < t /\ forall t', quadratic_root s ray t' -> t' <> t -> t' < 0).
Proof.
  intros Hu. rewrite (Sphere_intersect_variant v s ray Hu).
  pose proof EPS_pos as Heps.
  unfold origin_inside.
  pose proof (half_b_cases s ray) as Hc. cbv zeta in Hc.
  destruct (unit_direction_roots s ray Hu) as [Hnone Hsome]. cbv zeta in Hnone, Hsome.
  set (bh := Vec3_dot (Vec3_sub (origin ray) (center s)) (direction ray)) in *.
  set (c := Vec3_lengthSquared (Vec3_sub (origin ray) (center s))
            - radius s * radius s) in *.
  set (D := bh * bh - c) in *.
  pose proof (sqrt_pos D) as Hs.
  assert (Hin : c < 0 -> 0 <= D /\ - bh - sqrt D < 0 /\ 0 < - bh + sqrt D).
  { intros Hcn. assert (HD : 0 <= D) by (unfold D; nra).
    pose proof (sqrt_sqrt D HD) as Hsq. unfold D in Hsq at 3.
    split; [exact HD |]. split; nra. }
  assert (Hr1 : 0 <= D -> quadratic_root s ray (- bh - sqrt D))
    by (intros HD; apply (Hsome HD); auto).
  assert (Hr2 : 0 <= D -> quadratic_root s ray (- bh + sqrt D))
    by (intros HD; apply (Hsome HD); auto).
  destruct Hc as [[HD ->] | [(HD & H1 & ->) | [(HD & H1 & H2 & ->) | (HD & H1 & H2 & ->)]]].
  - (* negative discriminant *)
    split; [| split; [| split]].
    + intros t. split; [discriminate |].
      intros (Ht & _). exfalso. exact (Hnone HD t Ht).
    + split; [intros [t Ht]; discriminate |].
      intros (t & Ht & _). exfalso. exact (Hnone HD t Ht).
    + split; [| reflexivity]. intros _ t Ht. exfalso. exact (Hnone HD t Ht).
    + discriminate.
  - (* the smaller root qualifies *)
    split; [| split; [| split]].
    + intros t. split.
      * intros [= <-]. split; [auto |]. split; [exact H1 |].
        intros t' Ht' _. apply (Hsome HD) in Ht'. lra.
      * intros (Ht & Hgt & Hmin). f_equal. apply (Hsome HD) in Ht.
        destruct Ht as [-> | ->]; [reflexivity |].
        specialize (Hmin _ (Hr1 HD) H1). lra.
    + split; [| intros _; eexists; reflexivity].
      intros _. exists (- bh - sqrt D). auto.
    + split; [discriminate |].
      intros Hall. exfalso. specialize (Hall _ (Hr1 HD)). lra.
    + intros Hi t [= <-]. split; [lra |].
      destruct (Hin ltac:(unfold c; lra)) as (_ & Hneg & _). lra.
  - (* only the larger root qualifies *)
    split; [| split; [| split]].
    + intros t. split.
      * intros [= <-]. split; [auto |]. split; [exact H2 |].
        intros t' Ht' Hgt'. apply (Hsome HD) in Ht'. lra.
      * intros (Ht & Hgt & Hmin). f_equal. apply (Hsome HD) in Ht.
        destruct Ht as [-> | ->]; [lra | reflexivity].
    + split; [| intros _; eexists; reflexivity].
      intros _. exists (- bh + sqrt D). auto.
    + split; [discriminate |].
      intros Hall. exfalso. specialize (Hall _ (Hr2 HD)). lra.
    + intros Hi t [= <-]. split; [lra |].
      intros t' Ht' Hne. apply (Hsome HD) in Ht'.
      destruct (Hin ltac:(unfold c; lra)) as (_ & Hneg & _).
      destruct Ht' as [-> | ->]; [lra | congruence].
  - (* neither root qualifies *)
    split; [| split; [| split]].
    + intros t. split; [discriminate |].
      intros (Ht & Hgt & _). exfalso. apply (Hsome HD) in Ht. lra.
    + split; [intros [t Ht]; discriminate |].
      intros (t & Ht & Hgt). exfalso. apply (Hsome HD) in Ht. lra.
    + split; [| reflexivity]. intros _ t Ht. apply (Hsome HD) in Ht. lra.
    + discriminate.
Qed.


(** Evaluation of the half-b form on one of the concrete spheres and rays,
    up to the value under the square root, and replacement of that value. *)
Ltac half_b_concrete :=
  unfold Sphere_intersect_half_b;
  cbv [axis_ray miss_ray grazing_ray inner_ray unit_sphere radius2_sphere
       origin direction center radius
       Vec3_sub Vec3_dot Vec3_lengthSquared x y z].

Ltac under_sqrt e' :=
  match goal with |- context [sqrt ?e] => replace e with e' by lra end.

Ltac concrete_unit_direction :=
  unfold unit_direction, Vec3_dot; simpl; lra.

Lemma axis_ray_unit : unit_direction axis_ray.
Proof. concrete_unit_direction. Qed.

(** The first test case of the hardware test bench: the ray from (0,0,5)
    along (0,0,-1) meets the unit sphere at [t = 4]. *)
Example axis_ray_hits_at_4 (v : variant) :
  Sphere_intersect v unit_sphere axis_ray = Some 4.
Proof.
  rewrite (Sphere_intersect_variant v _ _ axis_ray_unit).
  half_b_concrete. under_sqrt 1.
  rewrite sqrt_1.
  destruct (Rlt_dec 1 0) as [H | _]; [lra |].
  destruct (Rgt_dec _ EPS) as [_ | H]; [f_equal; lra |].
  exfalso. apply H. unfold EPS. lra.
Qed.

(** The third and fourth test cases: the grazing ray touches the unit sphere
    at [t = 5], and from the centre of the sphere of radius 2 the hit is the
    exit point [t = 2]. *)
Example grazing_ray_hits_at_5 (v : variant) :
  Sphere_intersect v unit_sphere grazing_ray = Some 5.
Proof.
  assert (Hu : unit_direction grazing_ray) by concrete_unit_direction.
  rewrite (Sphere_intersect_variant v _ _ Hu).
  half_b_concrete. under_sqrt 0.
  rewrite sqrt_0.
  destruct (Rlt_dec 0 0) as [H | _]; [lra |].
  destruct (Rgt_dec _ EPS) as [_ | H]; [f_equal; lra |].
  exfalso. apply H. unfold EPS. lra.
Qed.

Example inner_ray_hits_at_2 (v : variant) :
  Sphere_intersect v radius2_sphere inner_ray = Some 2.
Proof.
  assert (Hu : unit_direction inner_ray) by concrete_unit_direction.
  rewrite (Sphere_intersect_variant v _ _ Hu).
  half_b_concrete. under_sqrt (2 * 2).
  rewrite sqrt_square by lra.
  destruct (Rlt_dec (2 * 2) 0) as [H | _]; [lra |].
  destruct (Rgt_dec _ EPS) as [H | _]; [exfalso; unfold EPS in H; lra |].
  destruct (Rgt_dec _ EPS) as [_ | H]; [f_equal; lra |].
  exfalso. apply H. unfold EPS. lra.
Qed.

Lemma Sphere_intersect_root_selection_witness :
  unit_direction axis_ray /\
  (is_Some (Sphere_intersect optimized unit_sphere axis_ray) <->
   exists t, quadratic_root unit_sphere axis_ray t /\ t > EPS).
Proof.
  split.
  - exact axis_ray_unit.
  - exact (proj1 (proj2 (Sphere_intersect_root_selection
                           optimized unit_sphere axis_ray axis_ray_unit))).
Defined.

(** C3, amended. For a ray with unit direction, the general quadratic of
    src/src/main.cpp and the half-b form of src/raytracer.cpp return the same
    result over the reals: both hit or both miss, and on a hit the two
    parameters are equal. *)
Theorem Sphere_intersect_forms_agree (s : Sphere) (ray : Ray) :
  unit_direction ray ->
  Sphere_intersect_quadratic s ray = Sphere_intersect_half_b s ray /\
  (is_Some (Sphere_intersect_quadratic s ray) <->
   is_Some (Sphere_intersect_half_b s ray)) /\
  (forall t t', Sphere_intersect_quadratic s ray = Some t ->
                Sphere_intersect_half_b s ray = Some t' ->
                t = t').
Proof.
  intros Hu. pose proof (Sphere_intersect_forms s ray Hu) as Heq.
  split; [exact Heq |]. rewrite Heq. split; [reflexivity |].
  intros t t' -> [= ->]. reflexivity.
Qed.

Lemma Sphere_intersect_forms_agree_witness :
  unit_direction axis_ray /\
  Sphere_intersect_quadratic unit_sphere axis_ray
  = Sphere_intersect_half_b unit_sphere axis_ray.
Proof.
  split.
  - exact axis_ray_unit.
  - exact (proj1 (Sphere_intersect_forms_agree unit_sphere axis_ray axis_ray_unit)).
Defined.

Section Binary64_forms.
Import PrimFloat.

(** C3, as stated, fails in floating point.  On binary64 the two forms
    disagree for rays that the [Ray] constructor builds, whose direction is
    as close to unit length as [normalize] makes it.  For the ray from
    (-0.75,-1.75,-1.5) towards (3,7,0), which touches the sphere of radius
    1.5 at the origin, the general quadratic reports a hit at
    [t = 1.9039...] and the half-b form reports none.  For the ray from
    (-10,-80,-1) towards (1,8,0), which touches the unit sphere, both report
    a hit, at [80.62257748...] and at [80.62257613...]: the two parameters
    are [1.3487e-6] apart. *)
Lemma Sphere_intersect_forms_differ_binary64 :
  (Binary64.Sphere_intersect_quadratic Binary64.tangent_sphere Binary64.tangent_ray
   = Some 0x1.e768d33f59cd7p+0%float /\
   Binary64.Sphere_intersect_half_b Binary64.tangent_sphere Binary64.tangent_ray
   = None /\
   Binary64.forms_agree Binary64.tangent_sphere Binary64.tangent_ray = false) /\
  (Binary64.Sphere_intersect_quadratic Binary64.unit_sphere Binary64.far_tangent_ray
   = Some 0x1.427d84f3a2984p+6%float /\
   Binary64.Sphere_intersect_half_b Binary64.unit_sphere Binary64.far_tangent_ray
   = Some 0x1.427d8499201ebp+6%float /\
   (0x1.427d84f3a2984p+6 - 0x1.427d8499201ebp+6 = 0x1.6a09e64p-20)%float /\
   (Binary64.TOLERANCE <? 0x1.6a09e64p-20)%float = true /\
   Binary64.forms_agree Binary64.unit_sphere Binary64.far_tangent_ray = false).
Proof.
  split.
  - split; [vm_compute; reflexivity |]. split; vm_compute; reflexivity.
  - repeat split; vm_compute; reflexivity.
Qed.

(** The directions that the constructor stored for the two rays: their
    squared lengths, computed as [Sphere::intersect] computes [a], are the
    [double] just below 1 and the [double] just above 1. *)
Remark tangent_rays_direction :
  Binary64.Vec3_dot (Binary64.direction Binary64.tangent_ray)
    (Binary64.direction Binary64.tangent_ray) = 0x1.ffffffffffffep-1%float /\
  Binary64.Vec3_dot (Binary64.direction Binary64.far_tangent_ray)
    (Binary64.direction Binary64.far_tangent_ray) = 0x1.0000000000001p+0%float.
Proof. split; vm_compute; reflexivity. Qed.

End Binary64_forms.

(** The unit direction is needed.  The ray built from the zero direction at
    the centre of the sphere of radius 2 has the zero vector as direction: the
    general quadratic reports no hit for it, the half-b form a hit at
    [t = 2]. *)
Remark forms_disagree_on_zero_direction :
  Sphere_intersect_quadratic radius2_sphere (Ray_new Vec3_zero Vec3_zero) = None /\
  Sphere_intersect_half_b radius2_sphere (Ray_new Vec3_zero Vec3_zero) = Some 2.
Proof.
  unfold Ray_new. rewrite Vec3_normalize_zero. split.
  - unfold Sphere_intersect_quadratic.
    cbv [radius2_sphere Vec3_zero origin direction center radius
         Vec3_sub Vec3_dot x y z].
    under_sqrt 0. rewrite sqrt_0.
    destruct (Rlt_dec 0 0) as [_ | _]; [reflexivity |].
    repeat match goal with
           | |- context [?n / ?d] =>
               replace (n / d) with 0
                 by (unfold Rdiv; replace n with 0 by lra; symmetry; apply Rmult_0_l)
           end.
    destruct (Rgt_dec 0 EPS) as [H | _]; [unfold EPS in H; lra | reflexivity].
  - unfold Sphere_intersect_half_b.
    cbv [radius2_sphere Vec3_zero origin direction center radius
         Vec3_sub Vec3_dot Vec3_lengthSquared x y z].
    under_sqrt (2 * 2). rewrite sqrt_square by lra.
    destruct (Rlt_dec (2 * 2) 0) as [H | _]; [lra |].
    destruct (Rgt_dec _ EPS) as [H | _]; [exfalso; unfold EPS in H; lra |].
    destruct (Rgt_dec _ EPS) as [_ | H]; [f_equal; lra |].
    exfalso. apply H. unfold EPS. lra.
Qed.

(** ** The Ray constructor *)

(** C8, as stated, fails for the ray built from the zero direction: its
    stored direction has length 0, not 1. *)
Lemma Ray_new_zero_direction_not_unit :
  Vec3_length (direction (Ray_new (mkVec3 0 0 0) (mkVec3 0 0 0))) <> 1.
Proof.
  change (mkVec3 0 0 0) with Vec3_zero. simpl. rewrite Vec3_normalize_zero.
  assert (H : Vec3_length Vec3_zero = 0) by (apply Vec3_length_zero_iff; reflexivity).
  rewrite H. lra.
Qed.

(** C8, amended. The constructor stores [normalize(d)] as the direction and
    leaves the origin as given; the stored direction has unit length when [d]
    is not the zero vector, and is the zero vector when [d] is. *)
Theorem Ray_new_direction (o d : Vec3) :
  origin (Ray_new o d) = o /\
  direction (Ray_new o d) = Vec3_normalize d /\
  (d <> Vec3_zero /\ Vec3_length (direction (Ray_new o d)) = 1 \/
   d = Vec3_zero /\ direction (Ray_new o d) = Vec3_zero).
Proof.
  split; [reflexivity |]. split; [reflexivity |]. simpl.
  destruct (Rgt_dec (Vec3_length d) 0) as [H | H].
  - left. assert (Hd : d <> Vec3_zero).
    { intros Hz. apply Vec3_length_zero_iff in Hz. lra. }
    split; [exact Hd | apply Vec3_normalize_unit, Hd].
  - right. pose proof (Vec3_length_nonneg d).
    assert (Hd : d = Vec3_zero) by (apply Vec3_length_zero_iff; lra).
    split; [exact Hd | rewrite Hd; apply Vec3_normalize_zero].
Qed.

(** ** The closest-hit scan *)

Lemma Rltb_true (a b : R) : Rltb a b = true <-> a < b.
Proof. unfold Rltb. destruct (Rlt_dec a b); split; auto; discriminate. Qed.

Lemma Rltb_false (a b : R) : Rltb a b = false <-> b <= a.
Proof. unfold Rltb. destruct (Rlt_dec a b); split; auto; try discriminate; lra. Qed.

Lemma Rgtb_true (a b : R) : Rgtb a b = true <-> a > b.
Proof. unfold Rgtb. destruct (Rgt_dec a b); split; auto; discriminate. Qed.

Lemma Rgtb_false (a b : R) : Rgtb a b = false <-> a <= b.
Proof. unfold Rgtb. destruct (Rgt_dec a b); split; auto; try discriminate; lra. Qed.

(** Whatever the direction, a parameter that [Sphere::intersect] returns
    passed one of the two tests against [EPS]. *)
Lemma Sphere_intersect_above_EPS (v : variant) (s : Sphere) (ray : Ray) (t : R) :
  Sphere_intersect v s ray = Some t -> t > EPS.
Proof.
  destruct v; simpl.
  - unfold Sphere_intersect_quadratic.
    destruct (Rlt_dec _ 0); [discriminate |].
    destruct (Rgt_dec _ EPS) as [H1 | _]; [intros [= <-]; exact H1 |].
    destruct (Rgt_dec _ EPS) as [H2 | _]; [intros [= <-]; exact H2 | discriminate].
  - unfold Sphere_intersect_half_b.
    destruct (Rlt_dec _ 0); [discriminate |].
    destruct (Rgt_dec _ EPS) as [H1 | _]; [intros [= <-]; exact H1 |].
    destruct (Rgt_dec _ EPS) as [H2 | _]; [intros [= <-]; exact H2 | discriminate].
Qed.

Lemma scan_inv_init (v : variant) (ray : Ray) : scan_inv v ray [] DBL_MAX (-1).
Proof. left. repeat split. intros j s t Hj. discriminate. Qed.

Lemma lookup_snoc_inv {A : Type} (pre : list A) (a : A) (j : nat) (b : A) :
  (pre ++ [a]) !! j = Some b ->
  pre !! j = Some b \/ (j = length pre /\ b = a).
Proof.
  intros H. destruct (decide (j < length pre)%nat) as [Hlt | Hge].
  - left. rewrite lookup_app_l in H by exact Hlt. exact H.
  - right. rewrite lookup_app_r in H by lia.
    destruct (j - length pre)%nat as [| m] eqn:E; simpl in H; [| discriminate].
    split; [lia | congruence].
Qed.

(** A sphere met in [pre ++ [s]] is met in [pre] or is [s] itself. *)
Ltac last_or_before Hj :=
  apply lookup_snoc_inv in Hj; destruct Hj as [Hj | [-> ->]].

(** One iteration of the scan keeps the invariant. *)
Lemma scan_inv_step (v : variant) (ray : Ray) (pre : list Sphere) (s : Sphere)
    (closest_t : R) (hit_idx : Z) :
  scan_inv v ray pre closest_t hit_idx ->
  match Sphere_intersect v s ray with
  | Some t =>
      if Rltb t closest_t
      then scan_inv v ray (pre ++ [s]) t (Z.of_nat (length pre))
      else scan_inv v ray (pre ++ [s]) closest_t hit_idx
  | None => scan_inv v ray (pre ++ [s]) closest_t hit_idx
  end.
Proof.
  intros Hinv.
  assert (Hlast : (pre ++ [s]) !! length pre = Some s).
  { rewrite lookup_app_r by lia. rewrite Nat.sub_diag. reflexivity. }
  destruct (Sphere_intersect v s ray) as [t |] eqn:Hs.
  - destruct (Rltb t closest_t) eqn:Hlt.
    + apply Rltb_true in Hlt. right. exists (length pre), s.
      split; [reflexivity |]. split; [exact Hlast |]. split; [exact Hs |].
      destruct Hinv as [(-> & -> & Hall) | (k & s0 & -> & Hk & Hs0 & Hmax & Hall)].
      * split; [exact Hlt |]. intros j s' t' Hj Ht'.
        last_or_before Hj.
        -- specialize (Hall _ _ _ Hj Ht'). split; lra.
        -- assert (t' = t) by congruence. subst. split; [lra | lia].
      * split; [lra |]. intros j s' t' Hj Ht'.
        last_or_before Hj.
        -- destruct (Hall _ _ _ Hj Ht') as [Hle _]. split; lra.
        -- assert (t' = t) by congruence. subst. split; [lra | lia].
    + apply Rltb_false in Hlt.
      destruct Hinv as [(-> & -> & Hall) | (k & s0 & -> & Hk & Hs0 & Hmax & Hall)].
      * left. repeat split. intros j s' t' Hj Ht'.
        last_or_before Hj.
        -- exact (Hall _ _ _ Hj Ht').
        -- assert (t' = t) by congruence. subst. exact Hlt.
      * right. exists k, s0. split; [reflexivity |].
        split; [rewrite lookup_app_l by (eapply lookup_lt_Some; exact Hk); exact Hk |].
        split; [exact Hs0 |]. split; [exact Hmax |].
        intros j s' t' Hj Ht'.
        last_or_before Hj.
        -- exact (Hall _ _ _ Hj Ht').
        -- assert (t' = t) by congruence. subst. split; [exact Hlt |].
           intros _. apply lookup_lt_Some in Hk. lia.
  - destruct Hinv as [(-> & -> & Hall) | (k & s0 & -> & Hk & Hs0 & Hmax & Hall)].
    + left. repeat split. intros j s' t' Hj Ht'.
      last_or_before Hj.
      * exact (Hall _ _ _ Hj Ht').
      * congruence.
    + right. exists k, s0. split; [reflexivity |].
      split; [rewrite lookup_app_l by (eapply lookup_lt_Some; exact Hk); exact Hk |].
      split; [exact Hs0 |]. split; [exact Hmax |].
      intros j s' t' Hj Ht'.
      last_or_before Hj.
      * exact (Hall _ _ _ Hj Ht').
      * congruence.
Qed.

Lemma Scene_intersect_loop_inv (v : variant) (ray : Ray) (ss pre : list Sphere)
    (closest_t : R) (hit_idx : Z) :
  scan_inv v ray pre closest_t hit_idx ->
  scan_inv v ray (pre ++ ss)
    (fst (Scene_intersect_loop v ss (length pre) ray closest_t hit_idx))
    (snd (Scene_intersect_loop v ss (length pre) ray closest_t hit_idx)).
Proof.
  revert pre closest_t hit_idx.
  induction ss as [| s ss IH]; intros pre closest_t hit_idx Hinv.
  - rewrite app_nil_r. exact Hinv.
  - pose proof (scan_inv_step v ray pre s closest_t hit_idx Hinv) as Hstep.
    assert (Hlen : S (length pre) = length (pre ++ [s]))
      by (rewrite length_app; simpl; lia).
    replace (pre ++ s :: ss) with ((pre ++ [s]) ++ ss)
      by (rewrite <- app_assoc; reflexivity).
    simpl. destruct (Sphere_intersect v s ray) as [t |].
    + destruct (Rltb t closest_t); rewrite Hlen; apply IH; exact Hstep.
    + rewrite Hlen. apply IH. exact Hstep.
Qed.

(** What [Scene::intersect] leaves in its result and reference parameters. *)
Lemma Scene_intersect_scan (v : variant) (sc : Scene) (ray : Ray) :
  let '(found, closest_t, hit_idx) := Scene_intersect v sc ray in
  scan_inv v ray (spheres sc) closest_t hit_idx /\
  found = negb (hit_idx =? -1)%Z.
Proof.
  unfold Scene_intersect.
  pose proof (Scene_intersect_loop_inv v ray (spheres sc) [] DBL_MAX (-1)
                (scan_inv_init v ray)) as H.
  simpl in H.
  destruct (Scene_intersect_loop v (spheres sc) 0 ray DBL_MAX (-1)) as [ct hi].
  simpl in H. split; [exact H | reflexivity].
Qed.

Lemma In_lookup {A : Type} (l : list A) (a : A) :
  In a l <-> exists i : nat, l !! i = Some a.
Proof. rewrite <- list_elem_of_In. apply list_elem_of_lookup. Qed.

(** C7. [Scene::intersect] scans the spheres in order.  Every parameter a
    sphere reports exceeds [EPS].  When the query returns [true], [hit_idx]
    is a valid index whose sphere reports [closest_t]; no sphere reports a
    smaller parameter, and no sphere at an earlier index reports the same
    one.  When it returns [false], [hit_idx] is [-1], and no sphere reports a
    parameter, if reported parameters are below the largest [double]. *)
Theorem Scene_intersect_closest_hit (v : variant) (sc : Scene) (ray : Ray) :
  let '(found, closest_t, hit_idx) := Scene_intersect v sc ray in
  (forall s t, In s (spheres sc) -> Sphere_intersect v s ray = Some t -> t > EPS) /\
  if found then
    exists (i : nat) s,
      hit_idx = Z.of_nat i /\ (i < length (spheres sc))%nat /\
      spheres sc !! i = Some s /\
      Sphere_intersect v s ray = Some closest_t /\ closest_t > EPS /\
      forall (j : nat) s' t', spheres sc !! j = Some s' ->
        Sphere_intersect v s' ray = Some t' ->
        closest_t <= t' /\ (t' = closest_t -> (i <= j)%nat)
  else
    hit_idx = (-1)%Z /\
    (hits_in_range v sc ray ->
     forall s, In s (spheres sc) -> Sphere_intersect v s ray = None).
Proof.
  pose proof (Scene_intersect_scan v sc ray) as H.
  destruct (Scene_intersect v sc ray) as [[found closest_t] hit_idx].
  destruct H as [Hinv ->].
  split; [intros s t _; apply Sphere_intersect_above_EPS |].
  destruct Hinv as [(-> & -> & Hall) | (k & s0 & -> & Hk & Hs0 & Hmax & Hall)].
  - simpl. split; [reflexivity |].
    intros Hrange s Hin.
    destruct (Sphere_intersect v s ray) as [t |] eqn:Hs; [| reflexivity].
    exfalso. pose proof (Hrange s t Hin Hs) as Hlt.
    apply In_lookup in Hin. destruct Hin as [j Hj].
    pose proof (Hall j s t Hj Hs). lra.
  - replace (Z.of_nat k =? -1)%Z with false by (symmetry; apply Z.eqb_neq; lia).
    simpl. exists k, s0. split; [reflexivity |].
    split; [eapply lookup_lt_Some; exact Hk |]. split; [exact Hk |].
    split; [exact Hs0 |].
    split; [eapply Sphere_intersect_above_EPS; exact Hs0 | exact Hall].
Qed.

Lemma miss_ray_unit : unit_direction miss_ray.
Proof. concrete_unit_direction. Qed.

(** The second test case of the test bench: the ray from (5,0,0) along
    (0,0,-1) misses the unit sphere. *)
Example miss_ray_misses (v : variant) :
  Sphere_intersect v unit_sphere miss_ray = None.
Proof.
  rewrite (Sphere_intersect_variant v _ _ miss_ray_unit).
  half_b_concrete.
  destruct (Rlt_dec _ 0) as [_ | H]; [reflexivity |].
  exfalso. apply H. lra.
Qed.

Example unit_scene_miss (v : variant) :
  Scene_intersect v unit_scene miss_ray = (false, DBL_MAX, (-1)%Z).
Proof.
  unfold Scene_intersect, unit_scene. simpl.
  rewrite miss_ray_misses. reflexivity.
Qed.

Example unit_scene_hit (v : variant) :
  Scene_intersect v unit_scene axis_ray = (true, 4, 0%Z).
Proof.
  unfold Scene_intersect, unit_scene. simpl.
  rewrite axis_ray_hits_at_4.
  replace (Rltb 4 DBL_MAX) with true; [reflexivity |].
  symmetry. apply Rltb_true. unfold DBL_MAX. apply IZR_lt. reflexivity.
Qed.

Lemma Scene_intersect_closest_hit_witness :
  hits_in_range baseline unit_scene miss_ray /\
  forall s, In s (spheres unit_scene) ->
            Sphere_intersect baseline s miss_ray = None.
Proof.
  assert (Hrange : hits_in_range baseline unit_scene miss_ray).
  { intros s t [<- | []] Hs. rewrite miss_ray_misses in Hs. discriminate. }
  split; [exact Hrange |].
  pose proof (Scene_intersect_closest_hit baseline unit_scene miss_ray) as H.
  rewrite unit_scene_miss in H.
  exact (proj2 (proj2 H) Hrange).
Defined.

(** ** The any-hit shadow query *)

Lemma Scene_intersectShadow_loop_true (ss : list Sphere) (ray : Ray) (d : R) :
  Scene_intersectShadow_loop ss ray d = true <->
  exists s t, In s ss /\ Sphere_intersect optimized s ray = Some t /\ EPS < t < d.
Proof.
  induction ss as [| s ss IH].
  - simpl. split; [discriminate | intros (s & t & [] & _)].
  - cbn [Scene_intersectShadow_loop].
    destruct (Sphere_intersect optimized s ray) as [t |] eqn:Hs.
    + destruct (Rgtb t EPS && Rltb t d) eqn:Hb.
      * split; [intros _ | reflexivity].
        apply andb_true_iff in Hb. destruct Hb as [H1 H2].
        apply Rgtb_true in H1. apply Rltb_true in H2.
        exists s, t. split; [left; reflexivity |]. split; [exact Hs | lra].
      * rewrite IH. split.
        -- intros (s' & t' & Hin & Hs' & Ht'). exists s', t'.
           split; [right; exact Hin | auto].
        -- intros (s' & t' & [<- | Hin] & Hs' & Ht').
           ++ exfalso. assert (t' = t) by congruence. subst t'.
              apply andb_false_iff in Hb. destruct Hb as [Hb | Hb].
              ** apply Rgtb_false in Hb. lra.
              ** apply Rltb_false in Hb. lra.
           ++ exists s', t'. auto.
    + rewrite IH. split.
      * intros (s' & t' & Hin & Hs' & Ht'). exists s', t'.
        split; [right; exact Hin | auto].
      * intros (s' & t' & [<- | Hin] & Hs' & Ht'); [congruence |].
        exists s', t'. auto.
Qed.

Lemma Sphere_intersect_is_root (v : variant) (s : Sphere) (ray : Ray) (t : R) :
  unit_direction ray -> Sphere_intersect v s ray = Some t -> quadratic_root s ray t.
Proof.
  intros Hu. rewrite (Sphere_intersect_variant v s ray Hu).
  destruct (unit_direction_roots s ray Hu) as [_ Hsome].
  destruct (half_b_cases s ray)
    as [[_ ->] | [(HD & _ & ->) | [(HD & _ & _ & ->) | (_ & _ & _ & ->)]]];
    try discriminate; intros [= <-]; apply (Hsome HD); auto.
Qed.

Lemma Sphere_intersect_below_root (v : variant) (s : Sphere) (ray : Ray) (t : R) :
  unit_direction ray -> quadratic_root s ray t -> t > EPS ->
  exists t0, Sphere_intersect v s ray = Some t0 /\ t0 <= t.
Proof.
  intros Hu Hr Hgt. rewrite (Sphere_intersect_variant v s ray Hu).
  destruct (unit_direction_roots s ray Hu) as [Hnone Hsome].
  pose proof (half_b_cases s ray) as Hc. cbv zeta in Hnone, Hsome, Hc.
  set (bh := Vec3_dot (Vec3_sub (origin ray) (center s)) (direction ray)) in *.
  set (c := Vec3_lengthSquared (Vec3_sub (origin ray) (center s))
            - radius s * radius s) in *.
  set (D := bh * bh - c) in *.
  pose proof (sqrt_pos D) as Hs.
  destruct Hc as [[HD _] | [(HD & H1 & ->) | [(HD & H1 & H2 & ->) | (HD & H1 & H2 & _)]]].
  - exfalso. exact (Hnone HD t Hr).
  - eexists. split; [reflexivity |].
    apply (Hsome HD) in Hr. destruct Hr as [-> | ->]; lra.
  - eexists. split; [reflexivity |].
    apply (Hsome HD) in Hr. destruct Hr as [-> | ->]; lra.
  - exfalso. apply (Hsome HD) in Hr. destruct Hr as [-> | ->]; lra.
Qed.

Lemma closest_hit_shadow_true (v : variant) (sc : Scene) (ray : Ray) (d : R) :
  d <= DBL_MAX ->
  closest_hit_shadow v sc ray d = true <->
  exists s t, In s (spheres sc) /\ Sphere_intersect v s ray = Some t /\ EPS < t < d.
Proof.
  intros Hd. unfold closest_hit_shadow.
  pose proof (Scene_intersect_scan v sc ray) as H.
  destruct (Scene_intersect v sc ray) as [[found closest_t] hit_idx].
  destruct H as [Hinv ->].
  destruct Hinv as [(-> & -> & Hall) | (k & s0 & -> & Hk & Hs0 & Hmax & Hall)].
  - simpl. split; [discriminate |].
    intros (s & t & Hin & Hs & Ht). exfalso.
    apply In_lookup in Hin. destruct Hin as [j Hj].
    pose proof (Hall j s t Hj Hs). lra.
  - replace (Z.of_nat k =? -1)%Z with false by (symmetry; apply Z.eqb_neq; lia).
    simpl. pose proof (Sphere_intersect_above_EPS _ _ _ _ Hs0) as Hgt.
    replace (Rgtb closest_t EPS) with true by (symmetry; apply Rgtb_true; exact Hgt).
    simpl. rewrite Rltb_true. split.
    + intros Hlt. exists s0, closest_t.
      split; [apply In_lookup; eauto |]. split; [exact Hs0 | lra].
    + intros (s & t & Hin & Hs & Ht).
      apply In_lookup in Hin. destruct Hin as [j Hj].
      destruct (Hall j s t Hj Hs) as [Hle _]. lra.
Qed.

(** C1. [Scene::intersectShadow] returns [true] exactly when some sphere of
    the scene reports a parameter strictly between [EPS] and the distance
    [d]; for a ray with unit direction, exactly when some sphere has a root
    of its quadratic strictly between [EPS] and [d].  For [d] a [double]
    (at most [DBL_MAX]) its verdict equals that of the closest-hit query
    restricted to the same interval, in the optimised copy and, for a ray with
    unit direction, in the baseline copy as well. *)
Theorem Scene_intersectShadow_any_hit (sc : Scene) (ray : Ray) (d : R) :
  (Scene_intersectShadow sc ray d = true <->
   exists s t, In s (spheres sc) /\
               Sphere_intersect optimized s ray = Some t /\ EPS < t < d) /\
  (unit_direction ray ->
   (Scene_intersectShadow sc ray d = true <->
    exists s t, In s (spheres sc) /\ quadratic_root s ray t /\ EPS < t < d)) /\
  (d <= DBL_MAX ->
   Scene_intersectShadow sc ray d = closest_hit_shadow optimized sc ray d) /\
  (d <= DBL_MAX -> unit_direction ray ->
   Scene_intersectShadow sc ray d = closest_hit_shadow baseline sc ray d).
Proof.
  pose proof (Scene_intersectShadow_loop_true (spheres sc) ray d) as Hany.
  fold (Scene_intersectShadow sc ray d) in Hany.
  split; [exact Hany |]. split; [| split].
  - intros Hu. rewrite Hany. split.
    + intros (s & t & Hin & Hs & Ht). exists s, t.
      split; [exact Hin |]. split; [| exact Ht].
      eapply Sphere_intersect_is_root; eassumption.
    + intros (s & t & Hin & Hr & Ht).
      destruct (Sphere_intersect_below_root optimized s ray t Hu Hr) as (t0 & Ht0 & Hle);
        [lra |].
      exists s, t0. split; [exact Hin |]. split; [exact Ht0 |].
      pose proof (Sphere_intersect_above_EPS _ _ _ _ Ht0). lra.
  - intros Hd. apply eq_iff_eq_true.
    rewrite Hany. symmetry. apply closest_hit_shadow_true, Hd.
  - intros Hd Hu. apply eq_iff_eq_true.
    rewrite Hany, (closest_hit_shadow_true baseline sc ray d Hd).
    split; intros (s & t & Hin & Hs & Ht); exists s, t;
      (split; [exact Hin |]); (split; [| exact Ht]).
    + rewrite Sphere_intersect_variant by exact Hu. exact Hs.
    + rewrite Sphere_intersect_variant in Hs by exact Hu. exact Hs.
Qed.

Lemma Vec3_normalize_down (a : R) :
  a < 0 -> Vec3_normalize (mkVec3 0 0 a) = mkVec3 0 0 (-1).
Proof.
  intros Ha. unfold Vec3_normalize, Vec3_length. simpl.
  replace (0 * 0 + 0 * 0 + a * a) with (Ropp a * Ropp a) by lra.
  rewrite sqrt_square by lra.
  destruct (Rgt_dec (Ropp a) 0) as [_ | H]; [| lra].
  unfold Vec3_div. simpl. f_equal; field; lra.
Qed.

(** The two copies do not make the same shadow test.  Seen from (0,0,5), the
    light at (0,0,3) is in front of the unit sphere: the optimised copy finds
    the point lit, the baseline copy, which does not bound the query by the
    distance to the light, finds it in shadow. *)
Remark in_shadow_copies_differ :
  let hit_point := mkVec3 0 0 5 in
  let light_dir := Vec3_normalize (Vec3_sub (Light_position near_light) hit_point) in
  in_shadow optimized unit_scene hit_point near_light light_dir = false /\
  in_shadow baseline unit_scene hit_point near_light light_dir = true.
Proof.
  cbv zeta.
  assert (Hdir : Vec3_normalize (Vec3_sub (Light_position near_light) (mkVec3 0 0 5))
                 = mkVec3 0 0 (-1)).
  { unfold Vec3_sub. simpl. replace (0 - 0) with 0 by lra.
    apply Vec3_normalize_down. lra. }
  assert (Hray : Ray_new (mkVec3 0 0 5) (mkVec3 0 0 (-1)) = axis_ray).
  { unfold Ray_new, axis_ray. f_equal. apply Vec3_normalize_down. lra. }
  assert (Hdist : Vec3_length (Vec3_sub (Light_position near_light) (mkVec3 0 0 5)) = 2).
  { unfold Vec3_length, Vec3_sub. simpl.
    replace (_ + _ + _) with (2 * 2) by lra. apply sqrt_square. lra. }
  rewrite Hdir. unfold in_shadow. rewrite Hray, Hdist. split.
  - unfold Scene_intersectShadow, unit_scene.
    cbn [spheres Scene_intersectShadow_loop].
    rewrite (axis_ray_hits_at_4 optimized).
    replace (Rltb 4 2) with false by (symmetry; apply Rltb_false; lra).
    rewrite andb_false_r. reflexivity.
  - rewrite unit_scene_hit. reflexivity.
Qed.

Lemma Scene_intersectShadow_any_hit_witness :
  (5 <= DBL_MAX /\ unit_direction axis_ray) /\
  Scene_intersectShadow unit_scene axis_ray 5
  = closest_hit_shadow baseline unit_scene axis_ray 5.
Proof.
  assert (Hd : 5 <= DBL_MAX).
  { unfold DBL_MAX. apply IZR_le. discriminate. }
  split; [split; [exact Hd | exact axis_ray_unit] |].
  exact (proj2 (proj2 (proj2 (Scene_intersectShadow_any_hit unit_scene axis_ray 5)))
           Hd axis_ray_unit).
Defined.

(** ** Recursive shading *)

Section Trace.

Variable pow : R -> R -> R.

Lemma Scene_intersect_hit_lookup (v : variant) (sc : Scene) (ray : Ray)
    (t : R) (hit_idx : Z) :
  Scene_intersect v sc ray = (true, t, hit_idx) ->
  exists sphere, spheres sc !! Z.to_nat hit_idx = Some sphere /\
                 Sphere_intersect v sphere ray = Some t.
Proof.
  intros Heq. pose proof (Scene_intersect_scan v sc ray) as H.
  rewrite Heq in H. destruct H as [Hinv Hfound].
  destruct Hinv as [(-> & _) | (k & s0 & -> & Hk & Hs0 & _)].
  - discriminate.
  - exists s0. rewrite Nat2Z.id. auto.
Qed.

(** One activation of [trace] that reaches the shading code. *)
Lemma trace_fuel_hit (fuel : nat) (v : variant) (sc : Scene) (ray : Ray)
    (depth : Z) (t : R) (hit_idx : Z) (sphere : Sphere) :
  (depth <= MAX_DEPTH)%Z ->
  Scene_intersect v sc ray = (true, t, hit_idx) ->
  spheres sc !! Z.to_nat hit_idx = Some sphere ->
  let hit_point := Ray_at ray t in
  let normal := Sphere_getNormal sphere hit_point in
  let view_dir := Vec3_normalize (Vec3_sub (origin ray) hit_point) in
  let color := local_color pow v sc sphere hit_point normal view_dir in
  trace_fuel pow (S fuel) v sc ray depth =
  if Rgtb (reflectivity (material sphere)) 0 && (depth <? MAX_DEPTH)%Z
  then
    match trace_fuel pow fuel v sc (reflect_ray hit_point normal view_dir) (depth + 1) with
    | None => None
    | Some reflect_color =>
        Some (combine_reflection v color reflect_color (reflectivity (material sphere)))
    end
  else Some color.
Proof.
  intros Hd Hhit Hlook. cbn [trace_fuel].
  replace (depth >? MAX_DEPTH)%Z with false by (symmetry; rewrite Z.gtb_ltb; apply Z.ltb_ge; lia).
  rewrite Hhit, Hlook. reflexivity.
Qed.

Lemma trace_fuel_deep (fuel : nat) (v : variant) (sc : Scene) (ray : Ray) (depth : Z) :
  (depth > MAX_DEPTH)%Z ->
  trace_fuel pow (S fuel) v sc ray depth = Some (background sc).
Proof.
  intros Hd. cbn [trace_fuel].
  replace (depth >? MAX_DEPTH)%Z with true; [reflexivity |].
  symmetry. rewrite Z.gtb_ltb. apply Z.ltb_lt. lia.
Qed.

Lemma trace_fuel_miss (fuel : nat) (v : variant) (sc : Scene) (ray : Ray) (depth : Z) :
  fst (fst (Scene_intersect v sc ray)) = false ->
  trace_fuel pow (S fuel) v sc ray depth = Some (background sc).
Proof.
  intros Hm. cbn [trace_fuel].
  destruct (depth >? MAX_DEPTH)%Z; [reflexivity |].
  destruct (Scene_intersect v sc ray) as [[found t] hit_idx].
  simpl in Hm. subst found. reflexivity.
Qed.

(** With more activations allowed than levels remain, [trace] returns. *)
Lemma trace_fuel_returns (v : variant) (sc : Scene) (fuel : nat) :
  forall (ray : Ray) (depth : Z),
    (Z.to_nat (MAX_DEPTH - depth) < fuel)%nat ->
    exists c, trace_fuel pow fuel v sc ray depth = Some c.
Proof.
  induction fuel as [| fuel IH]; intros ray depth Hfuel; [lia |].
  destruct (Z_gt_le_dec depth MAX_DEPTH) as [Hdeep | Hd].
  - exists (background sc). apply trace_fuel_deep, Hdeep.
  - destruct (Scene_intersect v sc ray) as [[found t] hit_idx] eqn:Hhit.
    destruct found.
    + destruct (Scene_intersect_hit_lookup v sc ray t hit_idx Hhit) as (sphere & Hlook & _).
      rewrite (trace_fuel_hit fuel v sc ray depth t hit_idx sphere Hd Hhit Hlook).
      destruct (Rgtb (reflectivity (material sphere)) 0 && (depth <? MAX_DEPTH)%Z) eqn:Hb;
        [| eauto].
      apply andb_true_iff in Hb. destruct Hb as [_ Hlt]. apply Z.ltb_lt in Hlt.
      edestruct (IH (reflect_ray (Ray_at ray t)
                       (Sphere_getNormal sphere (Ray_at ray t))
                       (Vec3_normalize (Vec3_sub (origin ray) (Ray_at ray t))))
                    (depth + 1)%Z) as [c Hc]; [lia |].
      rewrite Hc. eauto.
    + exists (background sc). apply trace_fuel_miss. rewrite Hhit. reflexivity.
Qed.

(** Allowing more activations does not change a result. *)
Lemma trace_fuel_mono (v : variant) (sc : Scene) (fuel : nat) :
  forall (fuel' : nat) (ray : Ray) (depth : Z) (c : Color),
    (fuel <= fuel')%nat ->
    trace_fuel pow fuel v sc ray depth = Some c ->
    trace_fuel pow fuel' v sc ray depth = Some c.
Proof.
  induction fuel as [| fuel IH]; intros fuel' ray depth c Hle Hc; [discriminate |].
  destruct fuel' as [| fuel']; [lia |].
  cbn [trace_fuel] in *.
  destruct (depth >? MAX_DEPTH)%Z; [exact Hc |].
  destruct (Scene_intersect v sc ray) as [[found t] hit_idx].
  destruct found; [| exact Hc].
  destruct (spheres sc !! Z.to_nat hit_idx) as [sphere |]; [| exact Hc].
  destruct (Rgtb (reflectivity (material sphere)) 0 && (depth <? MAX_DEPTH)%Z);
    [| exact Hc].
  match type of Hc with
  | match ?e with _ => _ end = _ => destruct e as [rc |] eqn:Hrc; [| discriminate]
  end.
  rewrite (IH fuel' _ _ rc ltac:(lia) Hrc). exact Hc.
Qed.

Lemma trace_fuel_Scene_trace (v : variant) (sc : Scene) (ray : Ray) (depth : Z)
    (fuel : nat) :
  (trace_bound depth <= fuel)%nat ->
  trace_fuel pow fuel v sc ray depth = Some (Scene_trace pow v sc ray depth).
Proof.
  intros Hle. unfold Scene_trace.
  destruct (trace_fuel_returns v sc (trace_bound depth) ray depth) as [c Hc];
    [unfold trace_bound; lia |].
  rewrite Hc. simpl. eapply trace_fuel_mono; eassumption.
Qed.

End Trace.

(** C5. [trace] returns exactly the background colour in its two terminal
    states: whenever [depth > MAX_DEPTH], with [MAX_DEPTH = 3], and, at any
    depth, whenever the closest-hit query finds nothing.  This is what the
    code computes after one activation, not the fallback of [Scene_trace]. *)
Theorem trace_background (pow : R -> R -> R) (v : variant) (sc : Scene)
    (ray : Ray) (depth : Z) :
  MAX_DEPTH = 3%Z /\
  ((depth > MAX_DEPTH)%Z ->
   Scene_trace pow v sc ray depth = background sc /\
   forall fuel, trace_fuel pow (S fuel) v sc ray depth = Some (background sc)) /\
  (fst (fst (Scene_intersect v sc ray)) = false ->
   Scene_trace pow v sc ray depth = background sc /\
   forall fuel, trace_fuel pow (S fuel) v sc ray depth = Some (background sc)).
Proof.
  split; [reflexivity |]. split.
  - intros Hd. split; [| intros fuel; apply trace_fuel_deep, Hd].
    unfold Scene_trace, trace_bound. rewrite trace_fuel_deep by exact Hd. reflexivity.
  - intros Hm. split; [| intros fuel; apply trace_fuel_miss, Hm].
    unfold Scene_trace, trace_bound. rewrite trace_fuel_miss by exact Hm. reflexivity.
Qed.

Lemma trace_background_witness :
  fst (fst (Scene_intersect optimized unit_scene miss_ray)) = false /\
  Scene_trace Rpower optimized unit_scene miss_ray 2 = background unit_scene.
Proof.
  assert (Hm : fst (fst (Scene_intersect optimized unit_scene miss_ray)) = false)
    by (rewrite unit_scene_miss; reflexivity).
  split; [exact Hm |].
  exact (proj1 (proj2 (proj2 (trace_background Rpower optimized unit_scene miss_ray 2)) Hm)).
Defined.

(** C6. [trace] terminates on every scene, ray and depth, in both copies:
    [trace_bound depth = 1 + max(0, 3 - depth)] nested activations are
    enough for it to return a colour, and allowing more changes nothing.
    Entered at depth 0, as [render] does, it nests at most four activations
    (depths 0, 1, 2 and 3), whatever the reflectivity of the spheres. *)
Theorem trace_terminates (pow : R -> R -> R) (v : variant) (sc : Scene)
    (ray : Ray) (depth : Z) :
  (exists c, trace_fuel pow (trace_bound depth) v sc ray depth = Some c /\
             Scene_trace pow v sc ray depth = c /\
             forall fuel, (trace_bound depth <= fuel)%nat ->
                          trace_fuel pow fuel v sc ray depth = Some c) /\
  trace_bound depth = S (Z.to_nat (3 - depth)) /\
  trace_fuel pow 4 v sc ray 0 = Some (Scene_trace pow v sc ray 0).
Proof.
  split; [| split; [reflexivity |]].
  - exists (Scene_trace pow v sc ray depth).
    split; [apply trace_fuel_Scene_trace; lia |]. split; [reflexivity |].
    intros fuel Hle. apply trace_fuel_Scene_trace, Hle.
  - apply trace_fuel_Scene_trace. unfold trace_bound, MAX_DEPTH. simpl. lia.
Qed.

(** ** Combining the reflected colour *)

Lemma blend_in_unit_range (local reflected : Color) (k : R) :
  0 <= k <= 1 -> in_unit_range local -> in_unit_range reflected ->
  in_unit_range (Vec3_add (Vec3_mul local (1 - k)) (Vec3_mul reflected k)).
Proof.
  intros Hk (Hlx & Hly & Hlz) (Hrx & Hry & Hrz).
  unfold in_unit_range. simpl. repeat split; nra.
Qed.

(** The reflection step of [trace] at a hit. *)
Lemma Scene_trace_hit (pow : R -> R -> R) (v : variant) (sc : Scene) (ray : Ray)
    (depth : Z) (t : R) (hit_idx : Z) (sphere : Sphere) :
  (depth <= MAX_DEPTH)%Z ->
  Scene_intersect v sc ray = (true, t, hit_idx) ->
  spheres sc !! Z.to_nat hit_idx = Some sphere ->
  let hit_point := Ray_at ray t in
  let normal := Sphere_getNormal sphere hit_point in
  let view_dir := Vec3_normalize (Vec3_sub (origin ray) hit_point) in
  let color := local_color pow v sc sphere hit_point normal view_dir in
  Scene_trace pow v sc ray depth =
  if Rgtb (reflectivity (material sphere)) 0 && (depth <? MAX_DEPTH)%Z
  then combine_reflection v color
         (Scene_trace pow v sc (reflect_ray hit_point normal view_dir) (depth + 1))
         (reflectivity (material sphere))
  else color.
Proof.
  intros Hd Hhit Hlook hit_point normal view_dir color.
  assert (Hs : Some (Scene_trace pow v sc ray depth) =
               Some (if Rgtb (reflectivity (material sphere)) 0 && (depth <? MAX_DEPTH)%Z
                     then combine_reflection v color
                            (Scene_trace pow v sc
                               (reflect_ray hit_point normal view_dir) (depth + 1))
                            (reflectivity (material sphere))
                     else color)); [| congruence].
  rewrite <- (trace_fuel_Scene_trace pow v sc ray depth (S (trace_bound depth)))
    by lia.
  rewrite (trace_fuel_hit pow _ v sc ray depth t hit_idx sphere Hd Hhit Hlook).
  fold hit_point normal view_dir color.
  destruct (Rgtb (reflectivity (material sphere)) 0 && (depth <? MAX_DEPTH)%Z) eqn:Hb;
    [| reflexivity].
  apply andb_true_iff in Hb. destruct Hb as [_ Hlt]. apply Z.ltb_lt in Hlt.
  rewrite (trace_fuel_Scene_trace pow v sc _ (depth + 1)); [reflexivity |].
  unfold trace_bound, MAX_DEPTH in *. lia.
Qed.

(** At a hit with [reflectivity > 0] and [depth < MAX_DEPTH], [trace]
    of src/raytracer.cpp returns the convex blend
    [local * (1 - k) + reflected * k] of the local colour and the colour
    traced along the reflected ray at [depth + 1], with [k] the reflectivity.  For [k] in [0,1] and channels in [0,1] the blend
    stays in [0,1]; the additive combination [local + reflected * k] does
    not. *)
Theorem trace_reflection_blend (pow : R -> R -> R) (sc : Scene) (ray : Ray)
    (depth : Z) (t : R) (hit_idx : Z) :
  (Scene_intersect optimized sc ray = (true, t, hit_idx) ->
   exists sphere,
     spheres sc !! Z.to_nat hit_idx = Some sphere /\
     let k := reflectivity (material sphere) in
     let hit_point := Ray_at ray t in
     let normal := Sphere_getNormal sphere hit_point in
     let view_dir := Vec3_normalize (Vec3_sub (origin ray) hit_point) in
     let local := local_color pow optimized sc sphere hit_point normal view_dir in
     let reflected :=
       Scene_trace pow optimized sc (reflect_ray hit_point normal view_dir)
         (depth + 1) in
     (k > 0 -> (depth < MAX_DEPTH)%Z ->
      Scene_trace pow optimized sc ray depth =
      Vec3_add (Vec3_mul local (1 - k)) (Vec3_mul reflected k))) /\
  (forall k local reflected,
     0 <= k <= 1 -> in_unit_range local -> in_unit_range reflected ->
     in_unit_range (Vec3_add (Vec3_mul local (1 - k)) (Vec3_mul reflected k))) /\
  (exists k local reflected,
     0 <= k <= 1 /\ in_unit_range local /\ in_unit_range reflected /\
     ~ in_unit_range (Vec3_add local (Vec3_mul reflected k))).
Proof.
  split; [| split].
  - intros Hhit.
    destruct (Scene_intersect_hit_lookup optimized sc ray t hit_idx Hhit)
      as (sphere & Hlook & _).
    exists sphere. split; [exact Hlook |].
    intros k hit_point normal view_dir local reflected Hk Hd.
    rewrite (Scene_trace_hit pow optimized sc ray depth t hit_idx sphere
               ltac:(lia) Hhit Hlook).
    fold k hit_point normal view_dir local reflected.
    replace (Rgtb k 0) with true by (symmetry; apply Rgtb_true; exact Hk).
    replace (depth <? MAX_DEPTH)%Z with true by (symmetry; apply Z.ltb_lt; exact Hd).
    reflexivity.
  - intros k local reflected. apply blend_in_unit_range.
  - exists 1, (mkVec3 1 1 1), (mkVec3 1 1 1).
    unfold in_unit_range. simpl.
    split; [lra |]. split; [lra |]. split; [lra |].
    intros (Hx & _). lra.
Qed.

(** The baseline copy combines additively at the same place. *)
Lemma baseline_trace_reflection_additive (pow : R -> R -> R) (sc : Scene)
    (ray : Ray) (depth : Z) (t : R) (hit_idx : Z) (sphere : Sphere) :
  Scene_intersect baseline sc ray = (true, t, hit_idx) ->
  spheres sc !! Z.to_nat hit_idx = Some sphere ->
  reflectivity (material sphere) > 0 -> (depth < MAX_DEPTH)%Z ->
  let k := reflectivity (material sphere) in
  let hit_point := Ray_at ray t in
  let normal := Sphere_getNormal sphere hit_point in
  let view_dir := Vec3_normalize (Vec3_sub (origin ray) hit_point) in
  Scene_trace pow baseline sc ray depth =
  Vec3_add (local_color pow baseline sc sphere hit_point normal view_dir)
    (Vec3_mul (Scene_trace pow baseline sc (reflect_ray hit_point normal view_dir)
                 (depth + 1)) k).
Proof.
  intros Hhit Hlook Hk Hd k hit_point normal view_dir.
  rewrite (Scene_trace_hit pow baseline sc ray depth t hit_idx sphere
             ltac:(lia) Hhit Hlook).
  fold k hit_point normal view_dir.
  replace (Rgtb k 0) with true by (symmetry; apply Rgtb_true; exact Hk).
  replace (depth <? MAX_DEPTH)%Z with true by (symmetry; apply Z.ltb_lt; exact Hd).
  reflexivity.
Qed.

Lemma trace_reflection_blend_witness :
  (Scene_intersect optimized unit_scene axis_ray = (true, 4, 0%Z) /\
   reflectivity (material unit_sphere) > 0 /\ (0 < MAX_DEPTH)%Z) /\
  exists sphere,
    spheres unit_scene !! Z.to_nat 0 = Some sphere /\
    Scene_trace Rpower optimized unit_scene axis_ray 0 =
    Vec3_add
      (Vec3_mul
         (local_color Rpower optimized unit_scene sphere (Ray_at axis_ray 4)
            (Sphere_getNormal sphere (Ray_at axis_ray 4))
            (Vec3_normalize (Vec3_sub (origin axis_ray) (Ray_at axis_ray 4))))
         (1 - reflectivity (material sphere)))
      (Vec3_mul
         (Scene_trace Rpower optimized unit_scene
            (reflect_ray (Ray_at axis_ray 4)
               (Sphere_getNormal sphere (Ray_at axis_ray 4))
               (Vec3_normalize (Vec3_sub (origin axis_ray) (Ray_at axis_ray 4))))
            (0 + 1))
         (reflectivity (material sphere))).
Proof.
  assert (Hk : reflectivity (material unit_sphere) > 0) by (simpl; lra).
  assert (Hd : (0 < MAX_DEPTH)%Z) by reflexivity.
  split; [split; [apply unit_scene_hit | split; [exact Hk | exact Hd]] |].
  destruct (proj1 (trace_reflection_blend Rpower unit_scene axis_ray 0 4 0)
              (unit_scene_hit optimized)) as (sphere & Hlook & Hblend).
  exists sphere. split; [exact Hlook |].
  assert (Hs : sphere = unit_sphere) by (simpl in Hlook; congruence).
  apply Hblend; [rewrite Hs; exact Hk | exact Hd].
Defined.

(** *** The two copies at one hit

    The ray [axis_ray] meets the unit sphere of [unit_scene] at (0,0,1),
    head on; the ray that [trace] follows from there leaves the sphere along
    the normal and meets nothing. *)

Lemma Vec3_normalize_up (a : R) :
  0 < a -> Vec3_normalize (mkVec3 0 0 a) = mkVec3 0 0 1.
Proof.
  intros Ha. unfold Vec3_normalize, Vec3_length. cbn [x y z].
  replace (0 * 0 + 0 * 0 + a * a) with (a * a) by lra.
  rewrite sqrt_square by lra.
  destruct (Rgt_dec a 0) as [_ | H]; [| lra].
  unfold Vec3_div. cbn [x y z]. f_equal; field; lra.
Qed.

Lemma axis_ray_hit_frame :
  Ray_at axis_ray 4 = mkVec3 0 0 1 /\
  Sphere_getNormal unit_sphere (mkVec3 0 0 1) = mkVec3 0 0 1 /\
  Vec3_normalize (Vec3_sub (origin axis_ray) (mkVec3 0 0 1)) = mkVec3 0 0 1 /\
  reflect_ray (mkVec3 0 0 1) (mkVec3 0 0 1) (mkVec3 0 0 1)
  = mkRay (mkVec3 0 0 1) (mkVec3 0 0 1).
Proof.
  split; [| split; [| split]].
  - cbv [Ray_at Vec3_add Vec3_mul axis_ray origin direction x y z]. f_equal; lra.
  - cbv [Sphere_getNormal Vec3_sub unit_sphere center x y z].
    replace (0 - 0) with 0 by lra. replace (1 - 0) with 1 by lra.
    apply Vec3_normalize_up. lra.
  - cbv [Vec3_sub axis_ray origin x y z].
    replace (0 - 0) with 0 by lra. replace (5 - 1) with 4 by lra.
    apply Vec3_normalize_up. lra.
  - cbv [reflect_ray Ray_new Vec3_reflect Vec3_mul Vec3_sub Vec3_dot x y z]. f_equal.
    replace (mkVec3 _ _ _) with (mkVec3 0 0 1) by (f_equal; lra).
    apply Vec3_normalize_up. lra.
Qed.

Lemma unit_scene_reflected_miss (v : variant) :
  fst (fst (Scene_intersect v unit_scene (mkRay (mkVec3 0 0 1) (mkVec3 0 0 1)))) = false.
Proof.
  set (r := mkRay (mkVec3 0 0 1) (mkVec3 0 0 1)).
  assert (Hu : unit_direction r)
    by (unfold unit_direction, Vec3_dot; cbn [r direction x y z]; lra).
  assert (Hs : Sphere_intersect v unit_sphere r = None).
  { destruct (Sphere_intersect v unit_sphere r) as [t |] eqn:Hs; [exfalso | reflexivity].
    pose proof (Sphere_intersect_above_EPS v unit_sphere r t Hs) as Hgt.
    pose proof (Sphere_intersect_is_root v unit_sphere r t Hu Hs) as Hroot.
    pose proof EPS_pos.
    unfold quadratic_root, Vec3_dot, Vec3_sub in Hroot.
    cbn [r unit_sphere origin direction center radius x y z] in Hroot. nra. }
  unfold Scene_intersect, unit_scene. cbn [spheres Scene_intersect_loop].
  rewrite Hs. reflexivity.
Qed.

(** C4. Where [trace] of src/raytracer.cpp blends, [trace] of
    src/src/main.cpp adds.  In [unit_scene], whose sphere has reflectivity
    0.3, the ray [axis_ray] at depth 0 finds the local colour (0.1,0.1,0.1)
    and the reflected colour (0.1,0.1,0.15), the background.  The blend
    [local * (1 - k) + reflected * k] is (0.1,0.1,0.115), and that is what
    src/raytracer.cpp returns; src/src/main.cpp returns
    [local + reflected * k], (0.13,0.13,0.145). *)
Theorem baseline_trace_adds (pow : R -> R -> R) :
  let k := reflectivity (material unit_sphere) in
  let hit_point := Ray_at axis_ray 4 in
  let normal := Sphere_getNormal unit_sphere hit_point in
  let view_dir := Vec3_normalize (Vec3_sub (origin axis_ray) hit_point) in
  let local v := local_color pow v unit_scene unit_sphere hit_point normal view_dir in
  let reflected v :=
    Scene_trace pow v unit_scene (reflect_ray hit_point normal view_dir) (0 + 1) in
  (forall v, Scene_intersect v unit_scene axis_ray = (true, 4, 0%Z)) /\
  spheres unit_scene !! Z.to_nat 0 = Some unit_sphere /\
  k = 0.3 /\ (0 < MAX_DEPTH)%Z /\
  (forall v, local v = mkVec3 0.1 0.1 0.1) /\
  (forall v, reflected v = mkVec3 0.1 0.1 0.15) /\
  Scene_trace pow optimized unit_scene axis_ray 0 = mkVec3 0.1 0.1 0.115 /\
  Scene_trace pow optimized unit_scene axis_ray 0
  = Vec3_add (Vec3_mul (local optimized) (1 - k)) (Vec3_mul (reflected optimized) k) /\
  Scene_trace pow baseline unit_scene axis_ray 0 = mkVec3 0.13 0.13 0.145 /\
  Scene_trace pow baseline unit_scene axis_ray 0
  <> Vec3_add (Vec3_mul (local baseline) (1 - k)) (Vec3_mul (reflected baseline) k).
Proof.
  intros k hit_point normal view_dir local reflected.
  destruct axis_ray_hit_frame as (Hp & Hn & Hv & Hr).
  assert (Hk : k = 0.3) by reflexivity.
  assert (Hlocal : forall v, local v = mkVec3 0.1 0.1 0.1).
  { intros v. unfold local, local_color.
    cbn [unit_scene lights fold_left unit_sphere material default_material
         Material_color ambient].
    unfold Vec3_mul. cbn [x y z]. f_equal; lra. }
  assert (Hrefl : forall v, reflected v = mkVec3 0.1 0.1 0.15).
  { intros v. unfold reflected, view_dir, normal, hit_point.
    rewrite Hp, Hn, Hv, Hr. unfold Scene_trace, trace_bound.
    rewrite (trace_fuel_miss pow _ v unit_scene _ (0 + 1) (unit_scene_reflected_miss v)).
    reflexivity. }
  assert (Htrace : forall v,
             Scene_trace pow v unit_scene axis_ray 0
             = combine_reflection v (local v) (reflected v) k).
  { intros v.
    rewrite (Scene_trace_hit pow v unit_scene axis_ray 0 4 0 unit_sphere
               ltac:(unfold MAX_DEPTH; lia) (unit_scene_hit v) eq_refl).
    fold hit_point normal view_dir. fold (local v) (reflected v).
    replace (Rgtb (reflectivity (material unit_sphere)) 0) with true
      by (symmetry; apply Rgtb_true; fold k; rewrite Hk; lra).
    reflexivity. }
  split; [exact unit_scene_hit |]. split; [reflexivity |].
  split; [exact Hk |]. split; [reflexivity |].
  split; [exact Hlocal |]. split; [exact Hrefl |].
  rewrite !Htrace, !Hlocal, !Hrefl, Hk.
  unfold combine_reflection, Vec3_add, Vec3_mul. cbn [x y z].
  split; [f_equal; lra |]. split; [reflexivity |]. split; [f_equal; lra |].
  intros H. apply (f_equal x) in H. cbn [x] in H. lra.
Qed.

(** ** Pixel conversion *)

Lemma std_max_Rmax (a b : R) : std_max a b = Rmax a b.
Proof.
  unfold std_max, Rmax.
  destruct (Rlt_dec a b), (Rle_dec a b); try reflexivity; lra.
Qed.

Lemma std_min_Rmin (a b : R) : std_min a b = Rmin a b.
Proof.
  unfold std_min, Rmin.
  destruct (Rlt_dec b a), (Rle_dec a b); try reflexivity; lra.
Qed.

Lemma clamp_channel_range (a : R) : 0 <= std_min 1 (std_max 0 a) <= 1.
Proof.
  unfold std_min, std_max.
  destruct (Rlt_dec 0 a); destruct (Rlt_dec _ 1); lra.
Qed.

Lemma clamp_in_unit_range (c : Color) : in_unit_range (clamp c).
Proof.
  unfold in_unit_range, clamp. simpl.
  repeat split; apply clamp_channel_range.
Qed.

(** On [[0, 1]] the conversion [Uint8(255.99 * a)] is the integer part of the
    product, and it fits in eight bits. *)
Lemma Uint8_scaled (a : R) :
  0 <= a <= 1 ->
  Uint8 (255.99 * a) = truncate (255.99 * a) /\
  truncate (255.99 * a) = Int_part (255.99 * a) /\
  (0 <= truncate (255.99 * a) <= 255)%Z /\
  IZR (truncate (255.99 * a)) <= 255.99 * a < IZR (truncate (255.99 * a)) + 1.
Proof.
  intros Ha. unfold Uint8, truncate.
  destruct (Rle_dec 0 (255.99 * a)) as [_ | Hn]; [| exfalso; apply Hn; lra].
  destruct (base_Int_part (255.99 * a)) as [Hlo Hhi].
  set (n := Int_part (255.99 * a)) in *.
  assert (Hn0 : (-1 < n)%Z) by (apply lt_IZR; lra).
  assert (Hn1 : (n < 256)%Z) by (apply lt_IZR; lra).
  split; [apply Z.mod_small; lia |]. split; [reflexivity |].
  split; [lia | lra].
Qed.

Lemma lor_shiftl_small (a b n : Z) :
  (0 <= n)%Z -> (0 <= b < 2 ^ n)%Z ->
  Z.lor (Z.shiftl a n) b = (a * 2 ^ n + b)%Z.
Proof.
  intros Hn Hb.
  assert (Hland : Z.land (Z.shiftl a n) b = 0%Z).
  { apply Z.bits_inj'. intros m Hm. rewrite Z.land_spec, Z.bits_0.
    destruct (Z.lt_ge_cases m n) as [Hlt | Hge].
    - rewrite Z.shiftl_spec_low by exact Hlt. reflexivity.
    - apply andb_false_iff. right.
      destruct (Z.eq_dec b 0%Z) as [-> | Hb0]; [apply Z.bits_0 |].
      apply Z.bits_above_log2; [lia |].
      assert (Z.log2 b < n)%Z by (apply Z.log2_lt_pow2; lia). lia. }
  rewrite <- Z.lxor_lor, <- Z.add_nocarry_lxor by exact Hland.
  rewrite Z.shiftl_mul_pow2 by exact Hn. reflexivity.
Qed.

Lemma wrap_int_small (n : Z) :
  (- 2 ^ 31 <= n < 2 ^ 31)%Z -> wrap_int n = n.
Proof. intros Hn. unfold wrap_int. rewrite Z.mod_small by lia. lia. Qed.

(** The four bytes of a packed pixel do not overlap. *)
Lemma pack_bytes (r g b : Z) :
  (0 <= r <= 255)%Z -> (0 <= g <= 255)%Z -> (0 <= b <= 255)%Z ->
  Uint32 (Z.lor (Z.lor (Z.lor (wrap_int (Z.shiftl 255 24))
                              (wrap_int (Z.shiftl r 16)))
                       (wrap_int (Z.shiftl g 8))) b)
  = (255 * 2 ^ 24 + r * 2 ^ 16 + g * 2 ^ 8 + b)%Z.
Proof.
  intros Hr Hg Hb.
  change (wrap_int (Z.shiftl 255 24)) with (Z.shiftl (-1) 24).
  rewrite (Z.shiftl_mul_pow2 r 16), (Z.shiftl_mul_pow2 g 8) by lia.
  rewrite !wrap_int_small by lia.
  assert (E1 : Z.lor (Z.shiftl (-1) 24) (r * 2 ^ 16)
               = Z.shiftl (- 2 ^ 8 + r) 16).
  { rewrite lor_shiftl_small by lia.
    rewrite Z.shiftl_mul_pow2 by lia. lia. }
  assert (E2 : Z.lor (Z.shiftl (- 2 ^ 8 + r) 16) (g * 2 ^ 8)
               = Z.shiftl ((- 2 ^ 8 + r) * 2 ^ 8 + g) 8).
  { rewrite lor_shiftl_small by lia.
    rewrite Z.shiftl_mul_pow2 by lia. lia. }
  rewrite E1, E2, lor_shiftl_small by lia.
  unfold Uint32. symmetry.
  apply Z.mod_unique with (q := (-1)%Z); [left |]; lia.
Qed.

Lemma packed_channels (r g b : Z) :
  (0 <= r <= 255)%Z -> (0 <= g <= 255)%Z -> (0 <= b <= 255)%Z ->
  let p := (255 * 2 ^ 24 + r * 2 ^ 16 + g * 2 ^ 8 + b)%Z in
  Z.shiftr p 24 = 255%Z /\
  Z.land (Z.shiftr p 16) 255 = r /\
  Z.land (Z.shiftr p 8) 255 = g /\
  Z.land p 255 = b.
Proof.
  intros Hr Hg Hb p.
  change 255%Z with (Z.ones 8) at 2 3 4.
  rewrite !Z.land_ones, !Z.shiftr_div_pow2 by lia.
  assert (H24 : (p / 2 ^ 24 = 255)%Z).
  { symmetry. apply Z.div_unique with (r := (r * 2 ^ 16 + g * 2 ^ 8 + b)%Z);
      [left | unfold p]; lia. }
  assert (H16 : (p / 2 ^ 16 = 255 * 2 ^ 8 + r)%Z).
  { symmetry. apply Z.div_unique with (r := (g * 2 ^ 8 + b)%Z);
      [left | unfold p]; lia. }
  assert (H8 : (p / 2 ^ 8 = (255 * 2 ^ 8 + r) * 2 ^ 8 + g)%Z).
  { symmetry. apply Z.div_unique with (r := b); [left | unfold p]; lia. }
  rewrite H24, H16, H8. split; [reflexivity |].
  split; [| split].
  - symmetry. apply Z.mod_unique with (q := 255%Z); [left |]; lia.
  - symmetry. apply Z.mod_unique with (q := (255 * 2 ^ 8 + r)%Z); [left |]; lia.
  - symmetry.
    apply Z.mod_unique with (q := ((255 * 2 ^ 8 + r) * 2 ^ 8 + g)%Z);
      [left | unfold p]; lia.
Qed.

(** ** Stores into the pixel buffer *)

Lemma run_writes_length (ws : list (nat * Z)) (buf : list Z) :
  length (run_writes ws buf) = length buf.
Proof.
  revert buf. induction ws as [| w ws IH]; intros buf; [reflexivity |].
  unfold run_writes in *. simpl. rewrite IH. apply length_insert.
Qed.

Lemma run_writes_lookup_other (ws : list (nat * Z)) (buf : list Z) (k : nat) :
  ~ In k (map fst ws) -> run_writes ws buf !! k = buf !! k.
Proof.
  revert buf. induction ws as [| [k' val'] ws IH]; intros buf Hk; [reflexivity |].
  simpl in Hk. unfold run_writes in *. simpl.
  rewrite IH by tauto. apply list_lookup_insert_ne. tauto.
Qed.

Lemma run_writes_lookup_written (ws : list (nat * Z)) (buf : list Z)
    (k : nat) (val : Z) :
  NoDup (map fst ws) -> In (k, val) ws -> (k < length buf)%nat ->
  run_writes ws buf !! k = Some val.
Proof.
  revert buf. induction ws as [| [k' val'] ws IH]; intros buf Hnd Hin Hlen;
    [destruct Hin |].
  simpl in Hnd. apply NoDup_cons in Hnd. destruct Hnd as [Hk' Hnd].
  change (run_writes ((k', val') :: ws) buf)
    with (run_writes ws (<[k' := val']> buf)).
  destruct Hin as [Heq | Hin].
  - injection Heq as -> ->.
    rewrite run_writes_lookup_other by (rewrite <- list_elem_of_In; exact Hk').
    apply list_lookup_insert_eq, Hlen.
  - apply IH; [exact Hnd | exact Hin | rewrite length_insert; exact Hlen].
Qed.

(** Stores to pairwise distinct cells can be reordered. *)
Lemma run_writes_Permutation (ws ws' : list (nat * Z)) (buf : list Z) :
  NoDup (map fst ws) -> Permutation ws ws' ->
  run_writes ws buf = run_writes ws' buf.
Proof.
  intros Hnd Hperm.
  assert (Hnd' : NoDup (map fst ws')).
  { assert (Hp : Permutation (map fst ws) (map fst ws'))
      by (apply Permutation_map; exact Hperm).
    rewrite <- Hp. exact Hnd. }
  apply list_eq. intros k.
  destruct (le_lt_dec (length buf) k) as [Hge | Hlt].
  - rewrite !(proj2 (lookup_ge_None _ _)); [reflexivity | |];
      rewrite run_writes_length; exact Hge.
  - destruct (in_dec Nat.eq_dec k (map fst ws)) as [Hin | Hout].
    + apply in_map_iff in Hin. destruct Hin as ([k0 val] & Hk0 & Hin).
      simpl in Hk0. subst k0.
      rewrite (run_writes_lookup_written ws buf k val Hnd Hin Hlt).
      symmetry. apply run_writes_lookup_written; [exact Hnd' | | exact Hlt].
      eapply Permutation_in; eassumption.
    + rewrite run_writes_lookup_other by exact Hout.
      rewrite run_writes_lookup_other; [reflexivity |].
      intros Hin. apply Hout.
      eapply Permutation_in; [apply Permutation_map, Permutation_sym, Hperm | exact Hin].
Qed.

(** When every cell is stored to, the initial contents do not matter. *)
Lemma run_writes_covering (ws : list (nat * Z)) (buf buf' : list Z) :
  NoDup (map fst ws) -> length buf = length buf' ->
  (forall k, (k < length buf)%nat -> In k (map fst ws)) ->
  run_writes ws buf = run_writes ws buf'.
Proof.
  intros Hnd Hlen Hcover. apply list_eq. intros k.
  destruct (le_lt_dec (length buf) k) as [Hge | Hlt].
  - rewrite !(proj2 (lookup_ge_None _ _)); [reflexivity | |];
      rewrite run_writes_length; lia.
  - pose proof (Hcover k Hlt) as Hin.
    apply in_map_iff in Hin. destruct Hin as ([k0 val] & Hk0 & Hin).
    simpl in Hk0. subst k0.
    rewrite (run_writes_lookup_written ws buf k val Hnd Hin Hlt).
    symmetry. apply run_writes_lookup_written; [exact Hnd | exact Hin | lia].
Qed.

Lemma interleaves_single {A : Type} (l : list A) : interleaves [l] l.
Proof.
  induction l as [| a l IH].
  - apply interleaves_done. repeat constructor.
  - exact (interleaves_step [] [] a l l IH).
Qed.

Lemma concat_all_nil {A : Type} (ls : list (list A)) :
  Forall (fun l => l = []) ls -> concat ls = [].
Proof.
  induction 1 as [| l ls Hl _ IH]; [reflexivity |].
  simpl. rewrite Hl, IH. reflexivity.
Qed.

(** An interleaving is a rearrangement of all the stores. *)
Lemma interleaves_Permutation {A : Type} (ls : list (list A)) (l : list A) :
  interleaves ls l -> Permutation (concat ls) l.
Proof.
  induction 1 as [ls Hnil | pre post a l0 rest _ IH].
  - rewrite concat_all_nil by exact Hnil. constructor.
  - rewrite concat_app in *. simpl in *.
    etransitivity; [symmetry; apply Permutation_middle |].
    apply perm_skip. exact IH.
Qed.

Section RenderFacts.

Variable pow : R -> R -> R.
Variable v : variant.
Variable scene : Scene.
Variable camera : Camera.
Variables width height : Z.

Local Abbreviation row_task' := (row_task pow v scene camera width height).
Local Abbreviation worker_task' := (worker_task pow v scene camera width height).

Lemma pixel_index (j i : nat) :
  (i < Z.to_nat width)%nat ->
  Z.to_nat (Z.of_nat j * width + Z.of_nat i) = (j * Z.to_nat width + i)%nat.
Proof.
  intros Hi. assert (0 < width)%Z by lia.
  rewrite Z2Nat.inj_add, Z2Nat.inj_mul, !Nat2Z.id by lia. reflexivity.
Qed.

Lemma row_task_indices (j : nat) :
  map fst (row_task' j) = seq (j * Z.to_nat width) (Z.to_nat width).
Proof.
  unfold row_task. rewrite map_map.
  rewrite <- (Nat.add_0_r (j * Z.to_nat width)) at 1.
  rewrite <- fmap_add_seq.
  apply map_ext_in. intros i Hi. apply in_seq in Hi.
  unfold pixel_write. simpl. apply pixel_index. lia.
Qed.

(** The sequential run stores to cells 0, 1, 2, ... in this order. *)
Lemma render_indices (rows : nat) :
  map fst (concat (map row_task' (seq 0 rows))) = seq 0 (rows * Z.to_nat width).
Proof.
  induction rows as [| rows IH]; [reflexivity |].
  rewrite seq_S, map_app, concat_app, map_app, IH. simpl.
  rewrite app_nil_r, row_task_indices.
  rewrite (Nat.add_comm (Z.to_nat width)), seq_app. reflexivity.
Qed.

Lemma render_indices_NoDup :
  NoDup (map fst (concat (map row_task' (seq 0 (Z.to_nat height))))).
Proof. rewrite render_indices. apply NoDup_seq. Qed.

(** With a buffer of [width * height] cells every store is inside it. *)
Lemma render_stores_in_range (pixels : list Z) (k : nat) (val : Z) :
  (0 <= width)%Z -> (0 <= height)%Z ->
  length pixels = Z.to_nat (width * height) ->
  In (k, val) (concat (map row_task' (seq 0 (Z.to_nat height)))) ->
  (k < length pixels)%nat.
Proof.
  intros Hw Hh Hlen Hin.
  assert (Hk : In k (map fst (concat (map row_task' (seq 0 (Z.to_nat height)))))).
  { apply in_map_iff. exists (k, val). auto. }
  rewrite render_indices in Hk. apply in_seq in Hk.
  rewrite Hlen, Z2Nat.inj_mul by lia. lia.
Qed.

Lemma concat_worker_tasks (chunks : list (list nat)) :
  concat (map worker_task' chunks) = concat (map row_task' (concat chunks)).
Proof.
  induction chunks as [| rows chunks IH]; [reflexivity |].
  simpl. rewrite map_app, concat_app, IH. reflexivity.
Qed.

Lemma parallel_run_Permutation (chunks : list (list nat)) (ws : list (nat * Z)) :
  parallel_run pow v scene camera width height chunks ws ->
  Permutation (concat (map row_task' (seq 0 (Z.to_nat height)))) ws.
Proof.
  intros [Hrows Hmerge]. apply interleaves_Permutation in Hmerge.
  rewrite concat_worker_tasks in Hmerge.
  etransitivity; [| exact Hmerge].
  rewrite <- !flat_map_concat_map.
  apply Permutation_flat_map. symmetry. exact Hrows.
Qed.

Lemma parallel_run_one_worker :
  parallel_run pow v scene camera width height [seq 0 (Z.to_nat height)]
    (concat (map row_task' (seq 0 (Z.to_nat height)))).
Proof.
  split.
  - simpl. rewrite app_nil_r. reflexivity.
  - apply interleaves_single.
Qed.

Lemma render_size :
  (0 <= width)%Z -> (0 <= height)%Z ->
  Z.to_nat (width * height) = (Z.to_nat height * Z.to_nat width)%nat.
Proof. intros Hw Hh. rewrite Z2Nat.inj_mul by lia. lia. Qed.

End RenderFacts.

(** ** The renderer *)

(** C9. The sample stored for a pixel is computed from the traced colour by
    clamping each channel to [0,1], scaling by 255.99 and dropping the
    fractional part; each channel fits in eight bits and the top byte is
    0xFF.  After [render], the sample of column [i] of row [j] is at index
    [j * width + i] of the buffer. *)
Theorem render_pixel_sample (pow : R -> R -> R) (v : variant) (scene : Scene)
    (camera : Camera) (width height : Z) (pixels : list Z) (i j : Z) :
  length pixels = Z.to_nat (width * height) ->
  (0 <= i < width)%Z -> (0 <= j < height)%Z ->
  let ray := Camera_getRay camera (IZR i / IZR (width - 1))
               (IZR (height - 1 - j) / IZR (height - 1))
               (IZR width / IZR height) in
  let traced := Scene_trace pow v scene ray 0 in
  let c := clamp traced in
  let r := truncate (255.99 * x c) in
  let g := truncate (255.99 * y c) in
  let b := truncate (255.99 * z c) in
  let p := pixel_value pow v scene camera width height j i in
  render pow v scene camera width height pixels !! Z.to_nat (j * width + i) = Some p /\
  (x c = Rmin 1 (Rmax 0 (x traced)) /\ y c = Rmin 1 (Rmax 0 (y traced)) /\
   z c = Rmin 1 (Rmax 0 (z traced))) /\
  in_unit_range c /\
  (0 <= r <= 255)%Z /\ (0 <= g <= 255)%Z /\ (0 <= b <= 255)%Z /\
  (IZR r <= 255.99 * x c < IZR r + 1 /\ IZR g <= 255.99 * y c < IZR g + 1 /\
   IZR b <= 255.99 * z c < IZR b + 1) /\
  p = (255 * 2 ^ 24 + r * 2 ^ 16 + g * 2 ^ 8 + b)%Z /\
  Z.shiftr p 24 = 255%Z /\
  Z.land (Z.shiftr p 16) 255 = r /\
  Z.land (Z.shiftr p 8) 255 = g /\
  Z.land p 255 = b.
Proof.
  intros Hlen Hi Hj ray traced c r g b p.
  pose proof (clamp_in_unit_range traced) as Hc. fold c in Hc.
  destruct Hc as (Hx & Hy & Hz).
  destruct (Uint8_scaled (x c) Hx) as (Hr8 & _ & Hr & Hrf).
  destruct (Uint8_scaled (y c) Hy) as (Hg8 & _ & Hg & Hgf).
  destruct (Uint8_scaled (z c) Hz) as (Hb8 & _ & Hb & Hbf).
  fold r in Hr8, Hr, Hrf. fold g in Hg8, Hg, Hgf. fold b in Hb8, Hb, Hbf.
  assert (Hp : p = (255 * 2 ^ 24 + r * 2 ^ 16 + g * 2 ^ 8 + b)%Z).
  { unfold p, pixel_value. fold ray. fold traced. fold c. unfold pack_pixel.
    rewrite Hr8, Hg8, Hb8. apply pack_bytes; assumption. }
  split.
  - unfold render.
    apply run_writes_lookup_written.
    + apply render_indices_NoDup.
    + apply in_concat. exists (row_task pow v scene camera width height (Z.to_nat j)).
      split.
      * apply in_map. apply in_seq. lia.
      * unfold row_task.
        replace (Z.to_nat (j * width + i), p)
          with (pixel_write pow v scene camera width height (Z.to_nat j) (Z.to_nat i)).
        -- apply in_map. apply in_seq. lia.
        -- unfold pixel_write, p. rewrite !Z2Nat.id by lia. reflexivity.
    + rewrite Hlen. apply Z2Nat.inj_lt; nia.
  - split.
    { unfold c, clamp. simpl. rewrite !std_min_Rmin, !std_max_Rmax. auto. }
    split; [exact (conj Hx (conj Hy Hz)) |].
    split; [exact Hr |]. split; [exact Hg |]. split; [exact Hb |].
    split; [exact (conj Hrf (conj Hgf Hbf)) |].
    split; [exact Hp |].
    rewrite Hp. apply packed_channels; assumption.
Qed.

Lemma render_pixel_sample_witness :
  (length [0%Z; 0%Z; 0%Z; 0%Z; 0%Z; 0%Z] = Z.to_nat (3 * 2) /\
   (0 <= 2 < 3)%Z /\ (0 <= 1 < 2)%Z) /\
  render Rpower optimized unit_scene main_camera 3 2
    [0%Z; 0%Z; 0%Z; 0%Z; 0%Z; 0%Z] !! Z.to_nat (1 * 3 + 2)
  = Some (pixel_value Rpower optimized unit_scene main_camera 3 2 1 2).
Proof.
  assert (Hlen : length [0%Z; 0%Z; 0%Z; 0%Z; 0%Z; 0%Z] = Z.to_nat (3 * 2))
    by reflexivity.
  assert (Hi : (0 <= 2 < 3)%Z) by lia.
  assert (Hj : (0 <= 1 < 2)%Z) by lia.
  split; [exact (conj Hlen (conj Hi Hj)) |].
  exact (proj1 (render_pixel_sample Rpower optimized unit_scene main_camera 3 2
                  [0%Z; 0%Z; 0%Z; 0%Z; 0%Z; 0%Z] 2 1 Hlen Hi Hj)).
Defined.

(** C10. The buffer that [render] leaves does not depend on how the row
    loop is run: for any number of workers, any assignment of the rows to
    them and any interleaving of their stores, the final buffer is the one
    of the sequential run from the same initial buffer; and when the buffer
    has the size [width * height] of the image, it is the same from any
    initial contents.  The sequential run is the run on one worker. *)
Theorem render_schedule_independent (pow : R -> R -> R) (v : variant)
    (scene : Scene) (camera : Camera) (width height : Z)
    (chunks : list (list nat)) (ws : list (nat * Z)) (pixels : list Z) :
  parallel_run pow v scene camera width height chunks ws ->
  run_writes ws pixels = render pow v scene camera width height pixels /\
  ((0 <= width)%Z -> (0 <= height)%Z ->
   length pixels = Z.to_nat (width * height) ->
   forall pixels', length pixels' = length pixels ->
     run_writes ws pixels' = render pow v scene camera width height pixels) /\
  parallel_run pow v scene camera width height [seq 0 (Z.to_nat height)]
    (concat (map (row_task pow v scene camera width height)
               (seq 0 (Z.to_nat height)))).
Proof.
  intros Hrun.
  pose proof (parallel_run_Permutation pow v scene camera width height chunks ws Hrun)
    as Hperm.
  pose proof (render_indices_NoDup pow v scene camera width height) as Hnd.
  assert (Hsame : forall buf,
             run_writes ws buf = render pow v scene camera width height buf).
  { intros buf. unfold render. symmetry.
    apply run_writes_Permutation; assumption. }
  split; [apply Hsame |]. split; [| apply parallel_run_one_worker].
  intros Hw Hh Hlen pixels' Hlen'.
  rewrite Hsame. unfold render.
  apply run_writes_covering; [exact Hnd | exact Hlen' |].
  intros k Hk. rewrite render_indices. apply in_seq.
  rewrite Hlen', Hlen, render_size in Hk by assumption. lia.
Qed.

Lemma render_schedule_independent_witness :
  parallel_run Rpower optimized unit_scene main_camera 2 2
    [[1%nat]; [0%nat]] two_worker_stores /\
  run_writes two_worker_stores [0%Z; 0%Z; 0%Z; 0%Z]
  = render Rpower optimized unit_scene main_camera 2 2 [0%Z; 0%Z; 0%Z; 0%Z].
Proof.
  set (pw := pixel_write Rpower optimized unit_scene main_camera 2 2).
  assert (Hrun : parallel_run Rpower optimized unit_scene main_camera 2 2
                   [[1%nat]; [0%nat]] two_worker_stores).
  { split.
    - apply perm_swap.
    - change (interleaves [[pw 1%nat 0%nat; pw 1%nat 1%nat];
                           [pw 0%nat 0%nat; pw 0%nat 1%nat]]
                [pw 1%nat 0%nat; pw 0%nat 0%nat; pw 1%nat 1%nat; pw 0%nat 1%nat]).
      apply (interleaves_step [] [[pw 0%nat 0%nat; pw 0%nat 1%nat]]
               (pw 1%nat 0%nat) [pw 1%nat 1%nat]).
      apply (interleaves_step [[pw 1%nat 1%nat]] [] (pw 0%nat 0%nat) [pw 0%nat 1%nat]).
      apply (interleaves_step [] [[pw 0%nat 1%nat]] (pw 1%nat 1%nat) []).
      apply (interleaves_step [[]] [] (pw 0%nat 1%nat) []).
      apply interleaves_done. repeat constructor. }
  split; [exact Hrun |].
  exact (proj1 (render_schedule_independent Rpower optimized unit_scene main_camera
                  2 2 [[1%nat]; [0%nat]] two_worker_stores
                  [0%Z; 0%Z; 0%Z; 0%Z] Hrun)).
Defined.


(** * Further properties of the code *)

(** ** Vector algebra *)

Lemma Vec3_eq (u v : Vec3) : x u = x v -> y u = y v -> z u = z v -> u = v.
Proof. destruct u, v. simpl. intros -> -> ->. reflexivity. Qed.

Lemma Vec3_length_sq (u : Vec3) : Vec3_length u * Vec3_length u = Vec3_lengthSquared u.
Proof. unfold Vec3_length. apply sqrt_sqrt, Vec3_lengthSquared_nonneg. Qed.

Lemma Vec3_length_of_lengthSquared (u : Vec3) (l : R) :
  0 <= l -> Vec3_lengthSquared u = l * l -> Vec3_length u = l.
Proof.
  intros Hl H. unfold Vec3_length. fold (Vec3_lengthSquared u).
  rewrite H. apply sqrt_square, Hl.
Qed.

Lemma Vec3_reflect_dot (u n : Vec3) :
  Vec3_dot n n = 1 -> Vec3_dot (Vec3_reflect u n) n = - Vec3_dot u n.
Proof.
  intros Hn. unfold Vec3_reflect, Vec3_sub, Vec3_mul, Vec3_dot in *. simpl.
  set (k := x u * x n + y u * y n + z u * z n).
  replace ((x u - x n * 2 * k) * x n + (y u - y n * 2 * k) * y n
           + (z u - z n * 2 * k) * z n)
    with (k - 2 * k * (x n * x n + y n * y n + z n * z n)) by (unfold k; ring).
  rewrite Hn. ring.
Qed.

Lemma Vec3_reflect_length (u n : Vec3) :
  Vec3_dot n n = 1 -> Vec3_length (Vec3_reflect u n) = Vec3_length u.
Proof.
  intros Hn. unfold Vec3_length. f_equal.
  unfold Vec3_reflect, Vec3_sub, Vec3_mul, Vec3_dot in *. simpl.
  set (k := x u * x n + y u * y n + z u * z n).
  replace ((x u - x n * 2 * k) * (x u - x n * 2 * k)
           + (y u - y n * 2 * k) * (y u - y n * 2 * k)
           + (z u - z n * 2 * k) * (z u - z n * 2 * k))
    with (x u * x u + y u * y u + z u * z u - 4 * k * k
          + 4 * k * k * (x n * x n + y n * y n + z n * z n))
    by (unfold k; ring).
  rewrite Hn. ring.
Qed.

Lemma Vec3_unit_dot (u : Vec3) : Vec3_dot u u = 1 <-> Vec3_length u = 1.
Proof. exact (unit_direction_length (mkRay Vec3_zero u)). Qed.

(** X1. [Vec3::reflect] about a unit normal is its own inverse, keeps the
    length of the vector and negates its component along the normal. *)
Theorem Vec3_reflect_unit_normal (u n : Vec3) :
  Vec3_dot n n = 1 ->
  Vec3_reflect (Vec3_reflect u n) n = u /\
  Vec3_length (Vec3_reflect u n) = Vec3_length u /\
  Vec3_dot (Vec3_reflect u n) n = - Vec3_dot u n.
Proof.
  intros Hn. pose proof (Vec3_reflect_dot u n Hn) as Hd.
  split; [| split; [apply Vec3_reflect_length, Hn | exact Hd]].
  unfold Vec3_reflect at 1. rewrite Hd.
  unfold Vec3_reflect, Vec3_sub, Vec3_mul. apply Vec3_eq; simpl; ring.
Qed.

Lemma Vec3_reflect_unit_normal_witness :
  Vec3_dot (mkVec3 0 0 1) (mkVec3 0 0 1) = 1 /\
  Vec3_reflect (Vec3_reflect (mkVec3 1 2 3) (mkVec3 0 0 1)) (mkVec3 0 0 1)
  = mkVec3 1 2 3.
Proof.
  assert (Hn : Vec3_dot (mkVec3 0 0 1) (mkVec3 0 0 1) = 1)
    by (unfold Vec3_dot; simpl; lra).
  split; [exact Hn |].
  exact (proj1 (Vec3_reflect_unit_normal (mkVec3 1 2 3) (mkVec3 0 0 1) Hn)).
Defined.

(** X2. [Vec3::cross] is orthogonal to both of its arguments, changes sign
    when they are swapped, and its squared length is
    [|u|^2 |v|^2 - (u . v)^2]. *)
Theorem Vec3_cross_orthogonal (u v : Vec3) :
  Vec3_dot (Vec3_cross u v) u = 0 /\
  Vec3_dot (Vec3_cross u v) v = 0 /\
  Vec3_cross v u = Vec3_mul (Vec3_cross u v) (-1) /\
  Vec3_lengthSquared (Vec3_cross u v)
  = Vec3_lengthSquared u * Vec3_lengthSquared v - Vec3_dot u v * Vec3_dot u v.
Proof.
  unfold Vec3_cross, Vec3_dot, Vec3_lengthSquared, Vec3_mul. simpl.
  repeat split; try ring. apply Vec3_eq; simpl; ring.
Qed.

Lemma Vec3_normalize_nonzero (u : Vec3) :
  u <> Vec3_zero ->
  0 < Vec3_length u /\ Vec3_normalize u = Vec3_div u (Vec3_length u).
Proof.
  intros Hu. pose proof (Vec3_length_nonneg u) as Hn.
  assert (Hl : Vec3_length u <> 0) by (intros H; apply Hu, Vec3_length_zero_iff, H).
  split; [lra |]. unfold Vec3_normalize.
  destruct (Rgt_dec (Vec3_length u) 0) as [_ | H]; [reflexivity | lra].
Qed.

Lemma Vec3_length_mul (u : Vec3) (k : R) :
  0 <= k -> Vec3_length (Vec3_mul u k) = Vec3_length u * k.
Proof.
  intros Hk. apply Vec3_length_of_lengthSquared.
  - pose proof (Vec3_length_nonneg u). nra.
  - replace (Vec3_length u * k * (Vec3_length u * k))
      with (Vec3_length u * Vec3_length u * (k * k)) by ring.
    rewrite Vec3_length_sq. unfold Vec3_lengthSquared, Vec3_mul. simpl. ring.
Qed.

Lemma Vec3_normalize_idem (u : Vec3) :
  Vec3_normalize (Vec3_normalize u) = Vec3_normalize u.
Proof.
  unfold Vec3_normalize at 2 3.
  destruct (Rgt_dec (Vec3_length u) 0) as [H | H].
  - unfold Vec3_normalize. rewrite Vec3_length_div by lra.
    destruct (Rgt_dec 1 0) as [_ | H1]; [| lra].
    unfold Vec3_div. apply Vec3_eq; simpl; field; lra.
  - apply Vec3_normalize_zero.
Qed.

Lemma Vec3_normalize_mul (u : Vec3) (k : R) :
  0 < k -> Vec3_normalize (Vec3_mul u k) = Vec3_normalize u.
Proof.
  intros Hk. unfold Vec3_normalize. rewrite Vec3_length_mul by lra.
  pose proof (Vec3_length_nonneg u) as Hn.
  destruct (Rgt_dec (Vec3_length u * k) 0) as [H1 | H1],
           (Rgt_dec (Vec3_length u) 0) as [H2 | H2]; try reflexivity; try nra.
  unfold Vec3_div, Vec3_mul. apply Vec3_eq; simpl; field; lra.
Qed.

(** X3. [Vec3::normalize] does not see a positive scale factor, and
    normalizing twice is normalizing once; so the [Ray] constructor builds
    the same ray from [d] and from [d * k]. *)
Theorem Vec3_normalize_scale (u : Vec3) (k : R) :
  0 < k ->
  Vec3_normalize (Vec3_mul u k) = Vec3_normalize u /\
  Vec3_normalize (Vec3_normalize u) = Vec3_normalize u /\
  forall o, Ray_new o (Vec3_mul u k) = Ray_new o u.
Proof.
  intros Hk.
  pose proof (Vec3_normalize_mul u k Hk) as Hscale.
  split; [exact Hscale |]. split.
  - apply Vec3_normalize_idem.
  - intros o. unfold Ray_new. rewrite Hscale. reflexivity.
Qed.

Lemma Vec3_normalize_scale_witness :
  0 < 2 /\ Vec3_normalize (Vec3_mul (mkVec3 0 0 (-1)) 2) = Vec3_normalize (mkVec3 0 0 (-1)).
Proof.
  assert (H : 0 < 2) by lra.
  split; [exact H | exact (proj1 (Vec3_normalize_scale (mkVec3 0 0 (-1)) 2 H))].
Defined.

(** X4. [Ray::at(0)] is the origin, and for a ray of unit direction the
    point [Ray::at(t)] lies at distance [|t|] from the origin: the parameter
    of a hit is a distance. *)
Theorem Ray_at_distance (ray : Ray) (t : R) :
  unit_direction ray ->
  Ray_at ray 0 = origin ray /\
  Vec3_length (Vec3_sub (Ray_at ray t) (origin ray)) = Rabs t.
Proof.
  intros Hu. split.
  - unfold Ray_at, Vec3_add, Vec3_mul. apply Vec3_eq; simpl; ring.
  - apply Vec3_length_of_lengthSquared; [apply Rabs_pos |].
    replace (Rabs t * Rabs t) with (t * t)
      by (unfold Rabs; destruct (Rcase_abs t); ring).
    unfold unit_direction, Vec3_dot in Hu.
    unfold Vec3_lengthSquared, Vec3_sub, Ray_at, Vec3_add, Vec3_mul. simpl.
    replace (_ + _ + _)
      with (t * t * (x (direction ray) * x (direction ray)
                     + y (direction ray) * y (direction ray)
                     + z (direction ray) * z (direction ray))) by ring.
    rewrite Hu. ring.
Qed.

Lemma Ray_at_distance_witness :
  unit_direction axis_ray /\
  Vec3_length (Vec3_sub (Ray_at axis_ray 4) (origin axis_ray)) = Rabs 4.
Proof.
  split; [exact axis_ray_unit | exact (proj2 (Ray_at_distance axis_ray 4 axis_ray_unit))].
Defined.

(** ** Sphere intersection *)

(** A root of the quadratic is a parameter at which the ray is on the
    sphere, whatever the direction. *)
Lemma quadratic_root_on_sphere (s : Sphere) (ray : Ray) (t : R) :
  quadratic_root s ray t <->
  Vec3_lengthSquared (Vec3_sub (Ray_at ray t) (center s)) = radius s * radius s.
Proof.
  unfold quadratic_root, Vec3_lengthSquared, Vec3_sub, Ray_at, Vec3_add,
    Vec3_mul, Vec3_dot. simpl.
  split; intros H; nra.
Qed.

Lemma hit_point_distance (v : variant) (s : Sphere) (ray : Ray) (t : R) :
  unit_direction ray -> Sphere_intersect v s ray = Some t ->
  Vec3_length (Vec3_sub (Ray_at ray t) (center s)) = Rabs (radius s).
Proof.
  intros Hu Hs. apply Vec3_length_of_lengthSquared; [apply Rabs_pos |].
  replace (Rabs (radius s) * Rabs (radius s)) with (radius s * radius s)
    by (unfold Rabs; destruct (Rcase_abs (radius s)); ring).
  apply quadratic_root_on_sphere.
  eapply Sphere_intersect_is_root; eassumption.
Qed.

Lemma hit_normal_unit (v : variant) (s : Sphere) (ray : Ray) (t : R) :
  unit_direction ray -> Sphere_intersect v s ray = Some t -> radius s <> 0 ->
  Vec3_sub (Ray_at ray t) (center s) <> Vec3_zero /\
  Vec3_dot (Sphere_getNormal s (Ray_at ray t)) (Sphere_getNormal s (Ray_at ray t)) = 1.
Proof.
  intros Hu Hs Hr. pose proof (hit_point_distance v s ray t Hu Hs) as Hon.
  assert (Hnz : Vec3_sub (Ray_at ray t) (center s) <> Vec3_zero).
  { intros Hz. apply Vec3_length_zero_iff in Hz. rewrite Hz in Hon.
    symmetry in Hon. exact (Rabs_no_R0 _ Hr Hon). }
  split; [exact Hnz |].
  apply Vec3_unit_dot. unfold Sphere_getNormal. apply Vec3_normalize_unit, Hnz.
Qed.

(** X5. The point that [trace] computes from a reported parameter lies on
    the sphere, and for a sphere of non-zero radius [Sphere::getNormal] there
    is a unit vector: the vector from the centre divided by the radius. *)
Theorem hit_point_on_sphere (v : variant) (s : Sphere) (ray : Ray) (t : R) :
  unit_direction ray ->
  Sphere_intersect v s ray = Some t ->
  let hit_point := Ray_at ray t in
  Vec3_length (Vec3_sub hit_point (center s)) = Rabs (radius s) /\
  (radius s <> 0 ->
   Vec3_length (Sphere_getNormal s hit_point) = 1 /\
   Sphere_getNormal s hit_point
   = Vec3_div (Vec3_sub hit_point (center s)) (Rabs (radius s))).
Proof.
  intros Hu Hs hit_point.
  pose proof (hit_point_distance v s ray t Hu Hs) as Hon. fold hit_point in Hon.
  split; [exact Hon |]. intros Hr.
  destruct (hit_normal_unit v s ray t Hu Hs Hr) as [Hnz _]. fold hit_point in Hnz.
  unfold Sphere_getNormal. split; [apply Vec3_normalize_unit, Hnz |].
  destruct (Vec3_normalize_nonzero _ Hnz) as [_ ->]. rewrite Hon. reflexivity.
Qed.

Lemma hit_point_on_sphere_witness :
  (unit_direction axis_ray /\
   Sphere_intersect optimized unit_sphere axis_ray = Some 4) /\
  Vec3_length (Vec3_sub (Ray_at axis_ray 4) (center unit_sphere))
  = Rabs (radius unit_sphere).
Proof.
  split; [split; [exact axis_ray_unit | exact (axis_ray_hits_at_4 optimized)] |].
  exact (proj1 (hit_point_on_sphere optimized unit_sphere axis_ray 4
                  axis_ray_unit (axis_ray_hits_at_4 optimized))).
Defined.

Lemma leaving_roots (s : Sphere) (ray : Ray) :
  unit_direction ray ->
  radius s * radius s <= Vec3_lengthSquared (Vec3_sub (origin ray) (center s)) ->
  0 <= Vec3_dot (Vec3_sub (origin ray) (center s)) (direction ray) ->
  forall t, quadratic_root s ray t -> t <= 0.
Proof.
  intros Hu Hout Haway t Ht.
  destruct (unit_direction_roots s ray Hu) as [Hnone Hsome]. cbv zeta in Hnone, Hsome.
  set (bh := Vec3_dot (Vec3_sub (origin ray) (center s)) (direction ray)) in *.
  set (c := Vec3_lengthSquared (Vec3_sub (origin ray) (center s))
            - radius s * radius s) in *.
  set (D := bh * bh - c) in *.
  destruct (Rlt_dec D 0) as [HD | HD]; [exfalso; exact (Hnone HD t Ht) |].
  assert (HD' : 0 <= D) by lra.
  assert (Hsq : sqrt D <= bh).
  { rewrite <- (sqrt_square bh) by exact Haway.
    apply sqrt_le_1_alt. unfold D, c. lra. }
  pose proof (sqrt_pos D) as Hs.
  apply (Hsome HD') in Ht. destruct Ht as [-> | ->]; lra.
Qed.

Lemma leaving_no_hit (v : variant) (s : Sphere) (ray : Ray) :
  unit_direction ray ->
  radius s * radius s <= Vec3_lengthSquared (Vec3_sub (origin ray) (center s)) ->
  0 <= Vec3_dot (Vec3_sub (origin ray) (center s)) (direction ray) ->
  Sphere_intersect v s ray = None.
Proof.
  intros Hu Hout Haway.
  destruct (Sphere_intersect v s ray) as [t |] eqn:Hs; [exfalso | reflexivity].
  pose proof (Sphere_intersect_above_EPS v s ray t Hs) as Hgt.
  pose proof (leaving_roots s ray Hu Hout Haway t
                (Sphere_intersect_is_root v s ray t Hu Hs)) as Hle.
  pose proof EPS_pos. lra.
Qed.

(** X6. A ray of unit direction that starts on or outside a sphere and does
    not move towards its centre meets the sphere at no positive parameter,
    and both copies report no hit for it. *)
Theorem Sphere_intersect_leaving (v : variant) (s : Sphere) (ray : Ray) :
  unit_direction ray ->
  radius s * radius s <= Vec3_lengthSquared (Vec3_sub (origin ray) (center s)) ->
  0 <= Vec3_dot (Vec3_sub (origin ray) (center s)) (direction ray) ->
  Sphere_intersect v s ray = None /\
  forall t, 0 < t ->
    Vec3_lengthSquared (Vec3_sub (Ray_at ray t) (center s)) <> radius s * radius s.
Proof.
  intros Hu Hout Haway. split; [apply leaving_no_hit; assumption |].
  intros t Ht Hon. apply quadratic_root_on_sphere in Hon.
  pose proof (leaving_roots s ray Hu Hout Haway t Hon). lra.
Qed.

Lemma Sphere_intersect_leaving_witness :
  (unit_direction (mkRay (mkVec3 0 0 1) (mkVec3 0 0 1)) /\
   radius unit_sphere * radius unit_sphere
   <= Vec3_lengthSquared (Vec3_sub (mkVec3 0 0 1) (center unit_sphere)) /\
   0 <= Vec3_dot (Vec3_sub (mkVec3 0 0 1) (center unit_sphere)) (mkVec3 0 0 1)) /\
  Sphere_intersect optimized unit_sphere (mkRay (mkVec3 0 0 1) (mkVec3 0 0 1)) = None.
Proof.
  assert (Hu : unit_direction (mkRay (mkVec3 0 0 1) (mkVec3 0 0 1)))
    by concrete_unit_direction.
  assert (Hout : radius unit_sphere * radius unit_sphere
                 <= Vec3_lengthSquared (Vec3_sub (mkVec3 0 0 1) (center unit_sphere)))
    by (unfold Vec3_lengthSquared; simpl; lra).
  assert (Haway : 0 <= Vec3_dot (Vec3_sub (mkVec3 0 0 1) (center unit_sphere))
                         (mkVec3 0 0 1))
    by (unfold Vec3_dot; simpl; lra).
  split; [exact (conj Hu (conj Hout Haway)) |].
  exact (proj1 (Sphere_intersect_leaving optimized unit_sphere _ Hu Hout Haway)).
Defined.

(** ** The general quadratic on directions of any length *)

Lemma general_no_root (a b c t : R) :
  0 < a -> b * b - 4 * a * c < 0 -> a * (t * t) + b * t + c <> 0.
Proof.
  intros Ha HD Ht.
  pose proof (Rle_0_sqr (2 * a * t + b)) as Hsq. unfold Rsqr in Hsq. nra.
Qed.

Lemma general_roots (a b c t : R) :
  0 < a -> 0 <= b * b - 4 * a * c ->
  a * (t * t) + b * t + c = 0 <->
  t = (- b - sqrt (b * b - 4 * a * c)) / (2 * a) \/
  t = (- b + sqrt (b * b - 4 * a * c)) / (2 * a).
Proof.
  intros Ha HD.
  pose proof (sqrt_sqrt _ HD) as Hs.
  set (r := sqrt (b * b - 4 * a * c)) in *.
  assert (H1 : 2 * a * ((- b - r) / (2 * a)) = - b - r) by (field; lra).
  assert (H2 : 2 * a * ((- b + r) / (2 * a)) = - b + r) by (field; lra).
  set (t1 := (- b - r) / (2 * a)) in *. set (t2 := (- b + r) / (2 * a)) in *.
  assert (Hroot : forall u, 2 * a * u = - b - r \/ 2 * a * u = - b + r ->
                            a * (u * u) + b * u + c = 0).
  { intros u Hu.
    assert (E : 4 * a * (a * (u * u) + b * u + c)
                = (2 * a * u) * (2 * a * u) + 2 * b * (2 * a * u) + 4 * a * c) by ring.
    assert (E0 : 4 * a * (a * (u * u) + b * u + c) = 0)
      by (destruct Hu as [Hu | Hu]; rewrite E, Hu; nra).
    apply Rmult_integral in E0. destruct E0; [lra | assumption]. }
  split.
  - intros Ht.
    assert (Hf : (2 * a * t + b + r) * (2 * a * t + b - r) = 0) by nra.
    apply Rmult_integral in Hf.
    destruct Hf as [Hf | Hf]; [left | right];
      apply (Rmult_eq_reg_l (2 * a)); lra.
  - intros [-> | ->]; apply Hroot; [left | right]; assumption.
Qed.

(** X7. [Sphere::intersect] of src/src/main.cpp does not need a unit
    direction: for every ray whose direction is not the zero vector it
    returns [t] exactly when [t] is the least root of the quadratic above
    [EPS], and no hit exactly when no root is above [EPS]. *)
Theorem Sphere_intersect_quadratic_any_direction (s : Sphere) (ray : Ray) :
  direction ray <> Vec3_zero ->
  (forall t, Sphere_intersect_quadratic s ray = Some t <->
     quadratic_root s ray t /\ t > EPS /\
     forall t', quadratic_root s ray t' -> t' > EPS -> t <= t') /\
  (Sphere_intersect_quadratic s ray = None <->
     forall t, quadratic_root s ray t -> t <= EPS).
Proof.
  intros Hd.
  assert (Ha : 0 < Vec3_dot (direction ray) (direction ray)).
  { rewrite Vec3_dot_lengthSquared.
    pose proof (Vec3_lengthSquared_nonneg (direction ray)) as Hn.
    destruct Hn as [Hn | Hn]; [exact Hn | exfalso].
    apply Hd, Vec3_length_zero_iff. unfold Vec3_length.
    fold (Vec3_lengthSquared (direction ray)). rewrite <- Hn. apply sqrt_0. }
  unfold Sphere_intersect_quadratic, quadratic_root.
  set (a := Vec3_dot (direction ray) (direction ray)) in *.
  set (b := 2 * Vec3_dot (Vec3_sub (origin ray) (center s)) (direction ray)).
  set (c := Vec3_dot (Vec3_sub (origin ray) (center s))
              (Vec3_sub (origin ray) (center s)) - radius s * radius s).
  pose proof (fun t => general_no_root a b c t Ha) as Hnone.
  pose proof (fun t => general_roots a b c t Ha) as Hsome.
  set (D := b * b - 4 * a * c) in *.
  pose proof (sqrt_pos D) as Hs.
  assert (H12 : (- b - sqrt D) / (2 * a) <= (- b + sqrt D) / (2 * a)).
  { unfold Rdiv. apply Rmult_le_compat_r; [| lra].
    apply Rlt_le, Rinv_0_lt_compat. lra. }
  set (t1 := (- b - sqrt D) / (2 * a)) in *.
  set (t2 := (- b + sqrt D) / (2 * a)) in *.
  destruct (Rlt_dec D 0) as [HD | HD].
  - split.
    + intros t. split; [discriminate |].
      intros (Ht & _). exfalso. exact (Hnone t HD Ht).
    + split; [| reflexivity]. intros _ t Ht. exfalso. exact (Hnone t HD Ht).
  - assert (HD' : 0 <= D) by lra.
    destruct (Rgt_dec t1 EPS) as [H1 | H1]; [| destruct (Rgt_dec t2 EPS) as [H2 | H2]].
    + split.
      * intros t. split.
        -- intros [= <-]. split; [apply (Hsome t1 HD'); auto |].
           split; [exact H1 |]. intros t' Ht' _. apply (Hsome t' HD') in Ht'. lra.
        -- intros (Ht & Hgt & Hmin). f_equal. apply (Hsome t HD') in Ht.
           destruct Ht as [-> | ->]; [reflexivity |].
           assert (Hr1 : a * (t1 * t1) + b * t1 + c = 0) by (apply (Hsome t1 HD'); auto).
           specialize (Hmin _ Hr1 H1). lra.
      * split; [discriminate |]. intros Hall. exfalso.
        assert (Hr1 : a * (t1 * t1) + b * t1 + c = 0) by (apply (Hsome t1 HD'); auto).
        specialize (Hall _ Hr1). lra.
    + split.
      * intros t. split.
        -- intros [= <-]. split; [apply (Hsome t2 HD'); auto |].
           split; [exact H2 |]. intros t' Ht' Hgt'. apply (Hsome t' HD') in Ht'. lra.
        -- intros (Ht & Hgt & Hmin). f_equal. apply (Hsome t HD') in Ht.
           destruct Ht as [-> | ->]; [lra | reflexivity].
      * split; [discriminate |]. intros Hall. exfalso.
        assert (Hr2 : a * (t2 * t2) + b * t2 + c = 0) by (apply (Hsome t2 HD'); auto).
        specialize (Hall _ Hr2). lra.
    + split.
      * intros t. split; [discriminate |].
        intros (Ht & Hgt & _). exfalso. apply (Hsome t HD') in Ht. lra.
      * split; [| reflexivity]. intros _ t Ht. apply (Hsome t HD') in Ht. lra.
Qed.

Lemma Sphere_intersect_quadratic_any_direction_witness :
  direction (mkRay (mkVec3 (-3) (-3) 5) (mkVec3 1 1 (-1))) <> Vec3_zero /\
  (Sphere_intersect_quadratic radius2_sphere
     (mkRay (mkVec3 (-3) (-3) 5) (mkVec3 1 1 (-1))) = None <->
   forall t, quadratic_root radius2_sphere
               (mkRay (mkVec3 (-3) (-3) 5) (mkVec3 1 1 (-1))) t -> t <= EPS).
Proof.
  assert (Hd : direction (mkRay (mkVec3 (-3) (-3) 5) (mkVec3 1 1 (-1))) <> Vec3_zero).
  { simpl. intros H. apply (f_equal x) in H. simpl in H. lra. }
  split; [exact Hd |].
  exact (proj2 (Sphere_intersect_quadratic_any_direction radius2_sphere _ Hd)).
Defined.

(** X8. The reference routine [software_intersect] of the test bench is
    [Sphere::intersect] of src/src/main.cpp on the same numbers, for every
    input: same verdict, same parameter on a hit, and 0 on a miss. *)
Theorem software_intersect_is_baseline (o d c : Vec3) (r : R) (m : Material) :
  software_intersect (x o) (y o) (z o) (x d) (y d) (z d) (x c) (y c) (z c) r
  = match Sphere_intersect_quadratic (mkSphere c r m) (mkRay o d) with
    | Some t => (true, t)
    | None => (false, 0)
    end.
Proof.
  unfold software_intersect, Sphere_intersect_quadratic, Vec3_dot, Vec3_sub. simpl.
  destruct (Rlt_dec _ 0); [reflexivity |].
  destruct (Rgt_dec _ EPS); [reflexivity |].
  destruct (Rgt_dec _ EPS); reflexivity.
Qed.

(** ** Building and querying a scene *)

Lemma Scene_intersect_loop_app (v : variant) (ray : Ray) (l1 l2 : list Sphere) :
  forall (i : nat) (closest_t : R) (hit_idx : Z),
    Scene_intersect_loop v (l1 ++ l2) i ray closest_t hit_idx
    = Scene_intersect_loop v l2 (i + length l1) ray
        (fst (Scene_intersect_loop v l1 i ray closest_t hit_idx))
        (snd (Scene_intersect_loop v l1 i ray closest_t hit_idx)).
Proof.
  induction l1 as [| s l1 IH]; intros i closest_t hit_idx.
  - simpl. rewrite Nat.add_0_r. reflexivity.
  - cbn [app Scene_intersect_loop length].
    replace (i + S (length l1))%nat with (S i + length l1)%nat by lia.
    destruct (Sphere_intersect v s ray) as [t |]; [destruct (Rltb t closest_t) |];
      apply IH.
Qed.

(** X9. A query on the empty scene finds nothing.  After [addSphere] the
    closest-hit query returns what it returned before, unless the new sphere
    reports a strictly smaller parameter: then the hit is the new sphere, at
    the index equal to the old number of spheres.  [addLight] does not change
    the query. *)
Theorem Scene_intersect_addSphere (v : variant) (sc : Scene) (sphere : Sphere)
    (light : Light) (ray : Ray) :
  Scene_intersect v Scene_new ray = (false, DBL_MAX, (-1)%Z) /\
  Scene_intersect v (Scene_addSphere sc sphere) ray
  = (let '(found, closest_t, hit_idx) := Scene_intersect v sc ray in
     match Sphere_intersect v sphere ray with
     | Some t =>
         if Rltb t closest_t
         then (true, t, Z.of_nat (length (spheres sc)))
         else (found, closest_t, hit_idx)
     | None => (found, closest_t, hit_idx)
     end) /\
  Scene_intersect v (Scene_addLight sc light) ray = Scene_intersect v sc ray.
Proof.
  split; [reflexivity |]. split; [| reflexivity].
  unfold Scene_intersect, Scene_addSphere. cbn [spheres].
  rewrite Scene_intersect_loop_app.
  destruct (Scene_intersect_loop v (spheres sc) 0 ray DBL_MAX (-1)) as [ct hi].
  cbn [fst snd Scene_intersect_loop Nat.add].
  destruct (Sphere_intersect v sphere ray) as [t |]; [| reflexivity].
  destruct (Rltb t ct); [| reflexivity].
  replace (Z.of_nat (length (spheres sc)) =? -1)%Z with false
    by (symmetry; apply Z.eqb_neq; lia).
  reflexivity.
Qed.

(** What the scan finds, in terms of the spheres as a set. *)
Lemma Scene_intersect_found (v : variant) (sc : Scene) (ray : Ray) :
  let '(found, closest_t, _) := Scene_intersect v sc ray in
  (found = false /\ closest_t = DBL_MAX /\
   forall s t, In s (spheres sc) -> Sphere_intersect v s ray = Some t -> DBL_MAX <= t) \/
  (found = true /\ closest_t < DBL_MAX /\
   (exists s, In s (spheres sc) /\ Sphere_intersect v s ray = Some closest_t) /\
   forall s t, In s (spheres sc) -> Sphere_intersect v s ray = Some t -> closest_t <= t).
Proof.
  pose proof (Scene_intersect_scan v sc ray) as H.
  destruct (Scene_intersect v sc ray) as [[found closest_t] hit_idx].
  destruct H as [Hinv ->].
  destruct Hinv as [(-> & -> & Hall) | (k & s0 & -> & Hk & Hs0 & Hmax & Hall)].
  - left. repeat split. intros s t Hin Hs.
    apply In_lookup in Hin. destruct Hin as [j Hj]. exact (Hall j s t Hj Hs).
  - right. replace (Z.of_nat k =? -1)%Z with false by (symmetry; apply Z.eqb_neq; lia).
    split; [reflexivity |]. split; [exact Hmax |]. split.
    + exists s0. split; [apply In_lookup; eauto | exact Hs0].
    + intros s t Hin Hs. apply In_lookup in Hin. destruct Hin as [j Hj].
      exact (proj1 (Hall j s t Hj Hs)).
Qed.

(** X10. The verdict and the parameter of the closest-hit query, and the
    verdict of the any-hit query, do not depend on the order in which the
    spheres were added; only [hit_idx] does. *)
Theorem Scene_queries_order (v : variant) (sc sc' : Scene) (ray : Ray) (d : R) :
  Permutation (spheres sc) (spheres sc') ->
  fst (Scene_intersect v sc ray) = fst (Scene_intersect v sc' ray) /\
  Scene_intersectShadow sc ray d = Scene_intersectShadow sc' ray d.
Proof.
  intros Hperm. split.
  - pose proof (Scene_intersect_found v sc ray) as H.
    pose proof (Scene_intersect_found v sc' ray) as H'.
    destruct (Scene_intersect v sc ray) as [[found ct] hi].
    destruct (Scene_intersect v sc' ray) as [[found' ct'] hi']. simpl.
    assert (Hin : forall s, In s (spheres sc) <-> In s (spheres sc')).
    { intros s. split; apply Permutation_in; [| symmetry]; exact Hperm. }
    destruct H as [(-> & -> & Hall) | (-> & Hmax & (s & Hs & Hst) & Hall)];
      destruct H' as [(-> & -> & Hall') | (-> & Hmax' & (s' & Hs' & Hst') & Hall')].
    + reflexivity.
    + exfalso. apply Hin in Hs'. pose proof (Hall _ _ Hs' Hst'). lra.
    + exfalso. apply Hin in Hs. pose proof (Hall' _ _ Hs Hst). lra.
    + f_equal. apply Hin in Hs'. apply Hin in Hs.
      pose proof (Hall _ _ Hs' Hst'). pose proof (Hall' _ _ Hs Hst). lra.
  - apply eq_iff_eq_true. unfold Scene_intersectShadow.
    rewrite !Scene_intersectShadow_loop_true.
    split; intros (s & t & Hin & H); exists s, t; (split; [| exact H]);
      eapply Permutation_in; try exact Hin; [| symmetry]; exact Hperm.
Qed.

Lemma Scene_queries_order_witness :
  Permutation (spheres (mkScene [unit_sphere; radius2_sphere] [] Vec3_zero))
              (spheres (mkScene [radius2_sphere; unit_sphere] [] Vec3_zero)) /\
  fst (Scene_intersect optimized
         (mkScene [unit_sphere; radius2_sphere] [] Vec3_zero) axis_ray)
  = fst (Scene_intersect optimized
           (mkScene [radius2_sphere; unit_sphere] [] Vec3_zero) axis_ray).
Proof.
  assert (Hp : Permutation
                 (spheres (mkScene [unit_sphere; radius2_sphere] [] Vec3_zero))
                 (spheres (mkScene [radius2_sphere; unit_sphere] [] Vec3_zero)))
    by apply perm_swap.
  split; [exact Hp |].
  exact (proj1 (Scene_queries_order optimized _ _ axis_ray 0 Hp)).
Defined.

(** X11. The any-hit query is never true for a distance of at most [EPS] or
    in a scene without spheres; a longer distance and an added sphere can
    only turn its verdict from [false] to [true]. *)
Theorem Scene_intersectShadow_monotone (sc : Scene) (sphere : Sphere) (ray : Ray)
    (d d' : R) :
  (d <= EPS -> Scene_intersectShadow sc ray d = false) /\
  Scene_intersectShadow Scene_new ray d = false /\
  (d <= d' -> Scene_intersectShadow sc ray d = true ->
   Scene_intersectShadow sc ray d' = true) /\
  (Scene_intersectShadow sc ray d = true ->
   Scene_intersectShadow (Scene_addSphere sc sphere) ray d = true).
Proof.
  unfold Scene_intersectShadow. split; [| split; [reflexivity | split]].
  - intros Hd. apply not_true_is_false. rewrite Scene_intersectShadow_loop_true.
    intros (s & t & _ & _ & Ht). lra.
  - intros Hd. rewrite !Scene_intersectShadow_loop_true.
    intros (s & t & Hin & Hs & Ht). exists s, t. repeat split; auto; lra.
  - rewrite !Scene_intersectShadow_loop_true.
    intros (s & t & Hin & Hs & Ht). exists s, t. split; [| auto].
    simpl. apply in_or_app. left. exact Hin.
Qed.

Lemma Scene_intersectShadow_monotone_witness :
  (5 <= 6 /\ Scene_intersectShadow unit_scene axis_ray 5 = true) /\
  Scene_intersectShadow unit_scene axis_ray 6 = true.
Proof.
  assert (Hd : 5 <= 6) by lra.
  assert (Hs : Scene_intersectShadow unit_scene axis_ray 5 = true).
  { unfold Scene_intersectShadow. apply Scene_intersectShadow_loop_true.
    exists unit_sphere, 4. split; [left; reflexivity |].
    split; [apply axis_ray_hits_at_4 | unfold EPS; lra]. }
  split; [exact (conj Hd Hs) |].
  exact (proj1 (proj2 (proj2 (Scene_intersectShadow_monotone
                                unit_scene unit_sphere axis_ray 5 6))) Hd Hs).
Defined.

Lemma Scene_intersect_loop_copies (ray : Ray) (ss : list Sphere) :
  unit_direction ray ->
  forall i closest_t hit_idx,
    Scene_intersect_loop baseline ss i ray closest_t hit_idx
    = Scene_intersect_loop optimized ss i ray closest_t hit_idx.
Proof.
  intros Hu. induction ss as [| s ss IH]; intros i closest_t hit_idx; [reflexivity |].
  cbn [Scene_intersect_loop].
  rewrite (Sphere_intersect_variant baseline s ray Hu),
          (Sphere_intersect_variant optimized s ray Hu).
  destruct (Sphere_intersect_half_b s ray) as [t |]; [destruct (Rltb t closest_t) |];
    apply IH.
Qed.

(** X12. On a ray of unit direction the closest-hit queries of the two
    copies return the same verdict, parameter and index. *)
Theorem Scene_intersect_copies_agree (sc : Scene) (ray : Ray) :
  unit_direction ray ->
  Scene_intersect baseline sc ray = Scene_intersect optimized sc ray.
Proof.
  intros Hu. unfold Scene_intersect.
  rewrite (Scene_intersect_loop_copies ray (spheres sc) Hu). reflexivity.
Qed.

Lemma Scene_intersect_copies_agree_witness :
  unit_direction axis_ray /\
  Scene_intersect baseline unit_scene axis_ray
  = Scene_intersect optimized unit_scene axis_ray.
Proof.
  split; [exact axis_ray_unit |].
  exact (Scene_intersect_copies_agree unit_scene axis_ray axis_ray_unit).
Defined.

Lemma Vec3_normalize_eq_zero (u : Vec3) :
  Vec3_normalize u = Vec3_zero -> u = Vec3_zero.
Proof.
  intros H. destruct (Vec3_length_zero_iff u) as [Hz _]. apply Hz.
  pose proof (Vec3_length_nonneg u) as Hn.
  destruct Hn as [Hn | Hn]; [exfalso | symmetry; exact Hn].
  assert (Hu : u <> Vec3_zero).
  { intros ->. assert (Vec3_length Vec3_zero = 0)
      by (apply Vec3_length_zero_iff; reflexivity). lra. }
  pose proof (Vec3_normalize_unit u Hu) as H1. rewrite H in H1.
  assert (Vec3_length Vec3_zero = 0) by (apply Vec3_length_zero_iff; reflexivity).
  lra.
Qed.

(** X13. For a light at a distance within the range of [double], the shadow
    test of the optimised copy is at most that of the baseline: a point that
    the optimised [trace] finds in shadow of a light, the baseline finds in
    shadow too. *)
Theorem in_shadow_optimized_baseline (sc : Scene) (hit_point : Vec3) (light : Light) :
  let light_dir := Vec3_normalize (Vec3_sub (Light_position light) hit_point) in
  Vec3_length (Vec3_sub (Light_position light) hit_point) <= DBL_MAX ->
  in_shadow optimized sc hit_point light light_dir = true ->
  in_shadow baseline sc hit_point light light_dir = true.
Proof.
  intros light_dir Hd Hopt. unfold in_shadow in *.
  unfold Scene_intersectShadow in Hopt.
  apply Scene_intersectShadow_loop_true in Hopt.
  destruct Hopt as (s & t & Hin & Hs & Ht).
  pose proof EPS_pos as Heps.
  assert (Hu : unit_direction (Ray_new hit_point light_dir)).
  { apply Ray_new_unit_direction. intros Hz. unfold light_dir in Hz.
    apply Vec3_normalize_eq_zero in Hz. rewrite Hz in Ht.
    assert (Vec3_length Vec3_zero = 0) by (apply Vec3_length_zero_iff; reflexivity).
    lra. }
  unfold Scene_intersect at 1.
  rewrite (Scene_intersect_loop_copies _ (spheres sc) Hu).
  fold (Scene_intersect optimized sc (Ray_new hit_point light_dir)).
  pose proof (Scene_intersect_found optimized sc (Ray_new hit_point light_dir)) as H.
  destruct (Scene_intersect optimized sc (Ray_new hit_point light_dir))
    as [[found ct] hi].
  destruct H as [(-> & -> & Hall) | (-> & _)]; [exfalso | reflexivity].
  pose proof (Hall s t Hin Hs). lra.
Qed.

Lemma in_shadow_optimized_baseline_witness :
  (Vec3_length (Vec3_sub (Light_position far_light) (mkVec3 0 0 5)) <= DBL_MAX /\
   in_shadow optimized unit_scene (mkVec3 0 0 5) far_light
     (Vec3_normalize (Vec3_sub (Light_position far_light) (mkVec3 0 0 5))) = true) /\
  in_shadow baseline unit_scene (mkVec3 0 0 5) far_light
    (Vec3_normalize (Vec3_sub (Light_position far_light) (mkVec3 0 0 5))) = true.
Proof.
  assert (Hdist : Vec3_length (Vec3_sub (Light_position far_light) (mkVec3 0 0 5)) = 8).
  { apply Vec3_length_of_lengthSquared; [lra |].
    unfold Vec3_lengthSquared, Vec3_sub. simpl. lra. }
  assert (Hd : Vec3_length (Vec3_sub (Light_position far_light) (mkVec3 0 0 5))
               <= DBL_MAX).
  { rewrite Hdist. unfold DBL_MAX. apply IZR_le. discriminate. }
  assert (Hs : in_shadow optimized unit_scene (mkVec3 0 0 5) far_light
                 (Vec3_normalize (Vec3_sub (Light_position far_light) (mkVec3 0 0 5)))
               = true).
  { unfold in_shadow. rewrite Hdist.
    assert (Hdir : Vec3_normalize (Vec3_sub (Light_position far_light) (mkVec3 0 0 5))
                   = mkVec3 0 0 (-1)).
    { unfold Vec3_sub. simpl. replace (0 - 0) with 0 by lra.
      apply Vec3_normalize_down. lra. }
    rewrite Hdir.
    assert (Hray : Ray_new (mkVec3 0 0 5) (mkVec3 0 0 (-1)) = axis_ray).
    { unfold Ray_new, axis_ray. f_equal. apply Vec3_normalize_down. lra. }
    rewrite Hray. unfold Scene_intersectShadow.
    apply Scene_intersectShadow_loop_true.
    exists unit_sphere, 4. split; [left; reflexivity |].
    split; [apply axis_ray_hits_at_4 | unfold EPS; lra]. }
  split; [exact (conj Hd Hs) |].
  exact (in_shadow_optimized_baseline unit_scene (mkVec3 0 0 5) far_light Hd Hs).
Defined.

(** ** Shading without reflection, and without lights *)

(** X14. At a hit where the material does not reflect, or at depth 3, [trace]
    follows no reflected ray: it returns the local colour, which in a scene
    without lights is the material colour times the ambient coefficient. *)
Theorem trace_without_reflection (pow : R -> R -> R) (v : variant) (sc : Scene)
    (ray : Ray) (depth : Z) (t : R) (hit_idx : Z) (sphere : Sphere) :
  (depth <= MAX_DEPTH)%Z ->
  Scene_intersect v sc ray = (true, t, hit_idx) ->
  spheres sc !! Z.to_nat hit_idx = Some sphere ->
  reflectivity (material sphere) <= 0 \/ depth = MAX_DEPTH ->
  let hit_point := Ray_at ray t in
  let normal := Sphere_getNormal sphere hit_point in
  let view_dir := Vec3_normalize (Vec3_sub (origin ray) hit_point) in
  Scene_trace pow v sc ray depth
  = local_color pow v sc sphere hit_point normal view_dir /\
  (lights sc = [] ->
   Scene_trace pow v sc ray depth
   = Vec3_mul (Material_color (material sphere)) (ambient (material sphere))).
Proof.
  intros Hd Hhit Hlook Hno hit_point normal view_dir.
  assert (Heq : Scene_trace pow v sc ray depth
                = local_color pow v sc sphere hit_point normal view_dir).
  { rewrite (Scene_trace_hit pow v sc ray depth t hit_idx sphere Hd Hhit Hlook).
    fold hit_point normal view_dir.
    replace (Rgtb (reflectivity (material sphere)) 0 && (depth <? MAX_DEPTH)%Z)
      with false; [reflexivity |].
    symmetry. apply andb_false_iff. destruct Hno as [Hk | ->].
    - left. apply Rgtb_false. exact Hk.
    - right. apply Z.ltb_irrefl. }
  split; [exact Heq |]. intros Hl. rewrite Heq. unfold local_color.
  rewrite Hl. reflexivity.
Qed.

Lemma trace_without_reflection_witness :
  ((3 <= MAX_DEPTH)%Z /\
   Scene_intersect optimized unit_scene axis_ray = (true, 4, 0%Z) /\
   spheres unit_scene !! Z.to_nat 0 = Some unit_sphere /\
   (reflectivity (material unit_sphere) <= 0 \/ 3%Z = MAX_DEPTH) /\
   lights unit_scene = []) /\
  Scene_trace Rpower optimized unit_scene axis_ray 3
  = Vec3_mul (Material_color (material unit_sphere)) (ambient (material unit_sphere)).
Proof.
  assert (Hd : (3 <= MAX_DEPTH)%Z) by (unfold MAX_DEPTH; lia).
  assert (Hno : reflectivity (material unit_sphere) <= 0 \/ 3%Z = MAX_DEPTH)
    by (right; reflexivity).
  assert (Hlook : spheres unit_scene !! Z.to_nat 0 = Some unit_sphere) by reflexivity.
  split.
  - split; [exact Hd |]. split; [apply unit_scene_hit |].
    split; [exact Hlook |]. split; [exact Hno | reflexivity].
  - exact (proj2 (trace_without_reflection Rpower optimized unit_scene axis_ray 3 4 0
                    unit_sphere Hd (unit_scene_hit optimized) Hlook Hno) eq_refl).
Defined.

Lemma Vec3_mul_in_unit_range (c : Color) (k : R) :
  in_unit_range c -> 0 <= k <= 1 -> in_unit_range (Vec3_mul c k).
Proof.
  intros (Hx & Hy & Hz) Hk. unfold in_unit_range, Vec3_mul. simpl.
  repeat split; nra.
Qed.

Lemma trace_fuel_unlit_range (pow : R -> R -> R) (sc : Scene) (fuel : nat) :
  unlit_well_formed sc ->
  forall ray depth c,
    trace_fuel pow fuel optimized sc ray depth = Some c -> in_unit_range c.
Proof.
  intros (Hl & Hbg & Hwf).
  induction fuel as [| fuel IH]; intros ray depth c Hc; [discriminate |].
  cbn [trace_fuel] in Hc.
  destruct (depth >? MAX_DEPTH)%Z; [injection Hc as <-; exact Hbg |].
  destruct (Scene_intersect optimized sc ray) as [[found t] hit_idx].
  destruct found; [| injection Hc as <-; exact Hbg].
  destruct (spheres sc !! Z.to_nat hit_idx) as [sphere |] eqn:Hlook; [| discriminate].
  assert (Hin : In sphere (spheres sc)) by (apply In_lookup; eauto).
  destruct (Hwf sphere Hin) as (Hcol & Hamb & Hrefl).
  assert (Hlocal : in_unit_range
                     (local_color pow optimized sc sphere (Ray_at ray t)
                        (Sphere_getNormal sphere (Ray_at ray t))
                        (Vec3_normalize (Vec3_sub (origin ray) (Ray_at ray t))))).
  { unfold local_color. rewrite Hl. simpl. apply Vec3_mul_in_unit_range; assumption. }
  destruct (Rgtb (reflectivity (material sphere)) 0 && (depth <? MAX_DEPTH)%Z).
  - match type of Hc with
    | match ?e with _ => _ end = _ => destruct e as [rc |] eqn:Hrc; [| discriminate]
    end.
    injection Hc as <-. simpl.
    apply blend_in_unit_range; [exact Hrefl | exact Hlocal | exact (IH _ _ _ Hrc)].
  - injection Hc as <-. exact Hlocal.
Qed.

Lemma clamp_channel_id (a : R) : 0 <= a <= 1 -> std_min 1 (std_max 0 a) = a.
Proof.
  intros Ha. unfold std_min, std_max.
  destruct (Rlt_dec 0 a); destruct (Rlt_dec _ 1); lra.
Qed.

(** X15. In a scene without lights whose materials and background are well
    formed, every colour that the optimised [trace] returns has its channels
    in [0,1], at every depth, so that [clamp] leaves it as it is. *)
Theorem trace_unlit_in_range (pow : R -> R -> R) (sc : Scene) (ray : Ray) (depth : Z) :
  unlit_well_formed sc ->
  in_unit_range (Scene_trace pow optimized sc ray depth) /\
  clamp (Scene_trace pow optimized sc ray depth) = Scene_trace pow optimized sc ray depth.
Proof.
  intros Hwf.
  assert (Hr : in_unit_range (Scene_trace pow optimized sc ray depth)).
  { apply (trace_fuel_unlit_range pow sc (trace_bound depth) Hwf ray depth).
    apply trace_fuel_Scene_trace. lia. }
  split; [exact Hr |].
  destruct Hr as (Hx & Hy & Hz). unfold clamp.
  apply Vec3_eq; simpl; apply clamp_channel_id; assumption.
Qed.

Lemma unit_scene_unlit_well_formed : unlit_well_formed unit_scene.
Proof.
  split; [reflexivity |]. split.
  - unfold in_unit_range. simpl. lra.
  - intros s [<- | []]. unfold in_unit_range. simpl. lra.
Qed.

Lemma trace_unlit_in_range_witness :
  unlit_well_formed unit_scene /\
  in_unit_range (Scene_trace Rpower optimized unit_scene axis_ray 0).
Proof.
  split; [exact unit_scene_unlit_well_formed |].
  exact (proj1 (trace_unlit_in_range Rpower unit_scene axis_ray 0
                  unit_scene_unlit_well_formed)).
Defined.

(** ** The camera *)

Lemma Vec3_sub_eq_zero (p q : Vec3) : Vec3_sub p q = Vec3_zero -> p = q.
Proof.
  unfold Vec3_sub, Vec3_zero. intros H.
  apply Vec3_eq; [apply (f_equal x) in H | apply (f_equal y) in H
                 | apply (f_equal z) in H]; simpl in H; lra.
Qed.

Lemma Vec3_normalize_orthogonal (u w : Vec3) :
  Vec3_dot u w = 0 -> Vec3_dot (Vec3_normalize u) w = 0.
Proof.
  intros H. unfold Vec3_normalize.
  destruct (Rgt_dec (Vec3_length u) 0) as [Hl | _].
  - unfold Vec3_dot, Vec3_div in *. simpl.
    replace (x u / Vec3_length u * x w + y u / Vec3_length u * y w
             + z u / Vec3_length u * z w)
      with ((x u * x w + y u * y w + z u * z w) / Vec3_length u) by (field; lra).
    rewrite H. unfold Rdiv. apply Rmult_0_l.
  - unfold Vec3_dot, Vec3_zero. simpl. ring.
Qed.

(** The direction that [Camera::getRay] hands to the [Ray] constructor, in
    the basis [w], [u_vec], [v_vec] that it builds. *)
Lemma Camera_getRay_direction (cam : Camera) (u v aspect_ratio : R) :
  let w := Vec3_normalize (Vec3_sub (Camera_position cam) (target cam)) in
  let u_vec := Vec3_normalize (Vec3_cross (up cam) w) in
  let v_vec := Vec3_cross w u_vec in
  let viewport_height := 2 * tan (fov cam * PI / 180 / 2) in
  let viewport_width := aspect_ratio * viewport_height in
  Camera_getRay cam u v aspect_ratio
  = Ray_new (Camera_position cam)
      (Vec3_add (Vec3_add (Vec3_mul w (-1))
                          (Vec3_mul u_vec (viewport_width * (u - 1 / 2))))
                (Vec3_mul v_vec (viewport_height * (v - 1 / 2)))).
Proof.
  intros w u_vec v_vec viewport_height viewport_width.
  unfold Camera_getRay. fold w. fold u_vec. fold v_vec.
  fold viewport_height. fold viewport_width. f_equal.
  unfold Vec3_add, Vec3_sub, Vec3_mul, Vec3_div. apply Vec3_eq; simpl; field.
Qed.

(** X16. When the camera is not at its target, every ray that
    [Camera::getRay] returns starts at the camera position and has a unit
    direction, for all image coordinates, aspect ratios, fields of view and
    up vectors. *)
Theorem Camera_getRay_unit (cam : Camera) (u v aspect_ratio : R) :
  Camera_position cam <> target cam ->
  origin (Camera_getRay cam u v aspect_ratio) = Camera_position cam /\
  unit_direction (Camera_getRay cam u v aspect_ratio).
Proof.
  intros Hpt. rewrite Camera_getRay_direction. cbv zeta.
  split; [reflexivity |].
  set (w := Vec3_normalize (Vec3_sub (Camera_position cam) (target cam))).
  set (u_vec := Vec3_normalize (Vec3_cross (up cam) w)).
  set (v_vec := Vec3_cross w u_vec).
  set (a := _ * (u - 1 / 2)). set (b := _ * (v - 1 / 2)).
  assert (Hw : Vec3_dot w w = 1).
  { apply Vec3_unit_dot. apply Vec3_normalize_unit. intros H. apply Hpt, Vec3_sub_eq_zero, H. }
  assert (Hu : Vec3_dot u_vec w = 0).
  { apply Vec3_normalize_orthogonal.
    unfold Vec3_cross, Vec3_dot. simpl. ring. }
  assert (Hv : Vec3_dot v_vec w = 0).
  { unfold v_vec, Vec3_cross, Vec3_dot. simpl. ring. }
  apply Ray_new_unit_direction. intros Hz.
  assert (Hdot : Vec3_dot (Vec3_add (Vec3_add (Vec3_mul w (-1)) (Vec3_mul u_vec a))
                             (Vec3_mul v_vec b)) w = -1).
  { replace (Vec3_dot (Vec3_add (Vec3_add (Vec3_mul w (-1)) (Vec3_mul u_vec a))
                                 (Vec3_mul v_vec b)) w)
      with (- Vec3_dot w w + a * Vec3_dot u_vec w + b * Vec3_dot v_vec w)
      by (unfold Vec3_dot, Vec3_add, Vec3_mul; simpl; ring).
    rewrite Hw, Hu, Hv. ring. }
  rewrite Hz in Hdot. unfold Vec3_dot, Vec3_zero in Hdot. simpl in Hdot. lra.
Qed.

Lemma Camera_getRay_unit_witness :
  Camera_position main_camera <> target main_camera /\
  unit_direction (Camera_getRay main_camera 0 1 (4 / 3)).
Proof.
  assert (Hpt : Camera_position main_camera <> target main_camera).
  { intros H. apply (f_equal y) in H. simpl in H. lra. }
  split; [exact Hpt | exact (proj2 (Camera_getRay_unit main_camera 0 1 (4 / 3) Hpt))].
Defined.

Lemma Vec3_normalize_opp (u : Vec3) :
  Vec3_normalize (Vec3_mul u (-1)) = Vec3_mul (Vec3_normalize u) (-1).
Proof.
  assert (Hl : Vec3_length (Vec3_mul u (-1)) = Vec3_length u).
  { unfold Vec3_length, Vec3_mul. simpl. f_equal. ring. }
  unfold Vec3_normalize. rewrite Hl.
  destruct (Rgt_dec (Vec3_length u) 0) as [H | H].
  - unfold Vec3_div, Vec3_mul. apply Vec3_eq; simpl; field; lra.
  - unfold Vec3_mul, Vec3_zero. apply Vec3_eq; simpl; ring.
Qed.

(** X17. The ray through the centre of the image, [u = v = 0.5], points from
    the camera to its target, whatever the up vector, the field of view and
    the aspect ratio. *)
Theorem Camera_getRay_centre (cam : Camera) (aspect_ratio : R) :
  direction (Camera_getRay cam (1 / 2) (1 / 2) aspect_ratio)
  = Vec3_normalize (Vec3_sub (target cam) (Camera_position cam)).
Proof.
  rewrite Camera_getRay_direction. cbv zeta. simpl.
  set (w := Vec3_normalize (Vec3_sub (Camera_position cam) (target cam))).
  replace (Vec3_add (Vec3_add (Vec3_mul w (-1)) _) _) with (Vec3_mul w (-1))
    by (unfold Vec3_add, Vec3_mul; apply Vec3_eq; simpl; ring).
  replace (Vec3_sub (target cam) (Camera_position cam))
    with (Vec3_mul (Vec3_sub (Camera_position cam) (target cam)) (-1))
    by (unfold Vec3_sub, Vec3_mul; apply Vec3_eq; simpl; ring).
  rewrite !Vec3_normalize_opp. fold w. f_equal.
  apply Vec3_normalize_idem.
Qed.

(** ** Image coordinates *)

(** X18. For an image of more than one column and more than one row, the
    coordinates that [render] hands to the camera lie in [0,1]; the first
    column is [u = 0] and the last [u = 1]; the first row is [v = 1], the top
    of the image, and the last [v = 0]; [u] grows with the column and [v]
    falls with the row. *)
Theorem pixel_coordinates (pow : R -> R -> R) (v : variant) (scene : Scene)
    (camera : Camera) (width height i j : Z) :
  (1 < width)%Z -> (1 < height)%Z ->
  (0 <= i < width)%Z -> (0 <= j < height)%Z ->
  pixel_value pow v scene camera width height j i
  = pack_pixel (clamp (Scene_trace pow v scene
                         (Camera_getRay camera (pixel_u width i) (pixel_v height j)
                            (IZR width / IZR height)) 0)) /\
  0 <= pixel_u width i <= 1 /\ 0 <= pixel_v height j <= 1 /\
  pixel_u width 0 = 0 /\ pixel_u width (width - 1) = 1 /\
  pixel_v height 0 = 1 /\ pixel_v height (height - 1) = 0 /\
  (forall i', (i < i')%Z -> pixel_u width i < pixel_u width i') /\
  (forall j', (j < j')%Z -> pixel_v height j' < pixel_v height j).
Proof.
  intros Hw Hh Hi Hj. split; [reflexivity |].
  assert (Hw' : 0 < IZR (width - 1)) by (apply IZR_lt; lia).
  assert (Hh' : 0 < IZR (height - 1)) by (apply IZR_lt; lia).
  assert (Hi0 : 0 <= IZR i) by (apply IZR_le; lia).
  assert (Hi1 : IZR i <= IZR (width - 1)) by (apply IZR_le; lia).
  assert (Hj0 : 0 <= IZR (height - 1 - j)) by (apply IZR_le; lia).
  assert (Hj1 : IZR (height - 1 - j) <= IZR (height - 1)) by (apply IZR_le; lia).
  unfold pixel_u, pixel_v.
  assert (Hdiv : forall a b c, 0 < c -> a <= b -> a / c <= b / c).
  { intros a b c Hc Hab. unfold Rdiv. apply Rmult_le_compat_r; [| exact Hab].
    apply Rlt_le, Rinv_0_lt_compat, Hc. }
  assert (Hdivlt : forall a b c, 0 < c -> a < b -> a / c < b / c).
  { intros a b c Hc Hab. unfold Rdiv. apply Rmult_lt_compat_r; [| exact Hab].
    apply Rinv_0_lt_compat, Hc. }
  assert (Hone : forall c, 0 < c -> c / c = 1) by (intros c Hc; field; lra).
  assert (Hzero : forall c, 0 / c = 0) by (intros c; unfold Rdiv; apply Rmult_0_l).
  repeat split.
  - rewrite <- (Hzero (IZR (width - 1))). apply Hdiv; assumption.
  - rewrite <- (Hone (IZR (width - 1)) Hw'). apply Hdiv; assumption.
  - rewrite <- (Hzero (IZR (height - 1))). apply Hdiv; assumption.
  - rewrite <- (Hone (IZR (height - 1)) Hh'). apply Hdiv; assumption.
  - apply Hzero.
  - apply Hone, Hw'.
  - replace (height - 1 - 0)%Z with (height - 1)%Z by lia. apply Hone, Hh'.
  - replace (height - 1 - (height - 1))%Z with 0%Z by lia. apply Hzero.
  - intros i' Hlt. apply Hdivlt; [exact Hw' | apply IZR_lt; exact Hlt].
  - intros j' Hlt. apply Hdivlt; [exact Hh' | apply IZR_lt; lia].
Qed.

Lemma pixel_coordinates_witness :
  ((1 < 800)%Z /\ (1 < 600)%Z /\ (0 <= 799 < 800)%Z /\ (0 <= 0 < 600)%Z) /\
  0 <= pixel_u 800 799 <= 1.
Proof.
  assert (Hw : (1 < 800)%Z) by lia. assert (Hh : (1 < 600)%Z) by lia.
  assert (Hi : (0 <= 799 < 800)%Z) by lia. assert (Hj : (0 <= 0 < 600)%Z) by lia.
  split; [exact (conj Hw (conj Hh (conj Hi Hj))) |].
  exact (proj1 (proj2 (pixel_coordinates Rpower optimized unit_scene main_camera
                         800 600 799 0 Hw Hh Hi Hj))).
Defined.

(** ** Clamping and quantisation *)

Lemma Int_part_le (a b : R) : a <= b -> (Int_part a <= Int_part b)%Z.
Proof.
  intros Hab. destruct (base_Int_part a) as [Ha _]. destruct (base_Int_part b) as [_ Hb].
  assert (H : (Int_part a < Int_part b + 1)%Z) by (apply lt_IZR; rewrite plus_IZR; lra).
  lia.
Qed.

(** X19. [clamp] leaves a colour with channels in [0,1] as it is, and
    clamping twice is clamping once.  On [0,1] the conversion
    [Uint8(255.99 * a)] is monotone, sends 0 to 0 and 1 to 255, and gives 255
    exactly from [255 / 255.99] on. *)
Theorem clamp_and_quantise (c : Color) (a b : R) :
  clamp (clamp c) = clamp c /\
  (in_unit_range c -> clamp c = c) /\
  Uint8 (255.99 * 0) = 0%Z /\ Uint8 (255.99 * 1) = 255%Z /\
  (0 <= a -> a <= b -> b <= 1 -> (Uint8 (255.99 * a) <= Uint8 (255.99 * b))%Z) /\
  (0 <= a <= 1 -> (Uint8 (255.99 * a) = 255%Z <-> 255 / 255.99 <= a)).
Proof.
  assert (Hid : forall c', in_unit_range c' -> clamp c' = c').
  { intros c' (Hx & Hy & Hz). unfold clamp.
    apply Vec3_eq; simpl; apply clamp_channel_id; assumption. }
  assert (Hq : forall r, 0 <= r <= 1 -> Uint8 (255.99 * r) = Int_part (255.99 * r)).
  { intros r Hr. destruct (Uint8_scaled r Hr) as (-> & -> & _). reflexivity. }
  split; [apply Hid, clamp_in_unit_range |]. split; [apply Hid |].
  split; [| split; [| split]].
  - rewrite Hq by lra. symmetry. apply Int_part_spec. lra.
  - rewrite Hq by lra. symmetry. apply Int_part_spec. lra.
  - intros Ha Hab Hb. rewrite !Hq by lra. apply Int_part_le. lra.
  - intros Ha. rewrite Hq by exact Ha.
    destruct (base_Int_part (255.99 * a)) as [Hlo Hhi]. split.
    + intros H. rewrite H in Hlo. lra.
    + intros H. symmetry. apply Int_part_spec. lra.
Qed.

Lemma clamp_and_quantise_witness :
  (in_unit_range (mkVec3 (1 / 2) 0 1) /\ 0 <= 1 / 2 /\ 1 / 2 <= 1 /\ 1 <= 1) /\
  clamp (mkVec3 (1 / 2) 0 1) = mkVec3 (1 / 2) 0 1 /\
  (Uint8 (255.99 * (1 / 2)) <= Uint8 (255.99 * 1))%Z.
Proof.
  assert (Hc : in_unit_range (mkVec3 (1 / 2) 0 1))
    by (unfold in_unit_range; cbn [x y z]; lra).
  assert (Ha : 0 <= 1 / 2) by lra.
  assert (Hab : 1 / 2 <= 1) by lra.
  assert (Hb : 1 <= 1) by lra.
  pose proof (clamp_and_quantise (mkVec3 (1 / 2) 0 1) (1 / 2) 1) as H.
  split; [exact (conj Hc (conj Ha (conj Hab Hb))) |].
  split; [exact (proj1 (proj2 H) Hc) |].
  exact (proj1 (proj2 (proj2 (proj2 (proj2 H)))) Ha Hab Hb).
Defined.

(** ** Fixed point in the test bench *)

Lemma SCALE_value : SCALE = 65536.
Proof. unfold SCALE, FRAC_BITS. simpl. reflexivity. Qed.

Lemma truncate_IZR (n : Z) : truncate (IZR n) = n.
Proof.
  unfold truncate. destruct (Rle_dec 0 (IZR n)) as [H | H].
  - symmetry. apply Int_part_spec. lra.
  - rewrite <- opp_IZR. replace (Int_part (IZR (- n))) with (- n)%Z; [lia |].
    apply Int_part_spec. lra.
Qed.

(** The integer that a conversion keeps is between zero and the number. *)
Lemma truncate_bounds (r : R) :
  (0 <= r -> r - 1 < IZR (truncate r) <= r) /\
  (r <= 0 -> r <= IZR (truncate r) < r + 1).
Proof.
  unfold truncate. split; intros Hr.
  - destruct (Rle_dec 0 r) as [_ | H]; [| lra].
    destruct (base_Int_part r). lra.
  - destruct (Rle_dec 0 r) as [H | H].
    + assert (r = 0) by lra. subst r.
      replace (Int_part 0) with 0%Z by (apply Int_part_spec; lra). lra.
    + rewrite opp_IZR. destruct (base_Int_part (- r)). lra.
Qed.

(** X20. Every 32-bit fixed-point value survives the round trip through
    [double]: [double_to_fixed(fixed_to_double(n)) = n]. *)
Theorem fixed_double_fixed (n : Z) :
  (- 2 ^ 31 <= n < 2 ^ 31)%Z ->
  double_to_fixed (fixed_to_double n) = n.
Proof.
  intros Hn. unfold double_to_fixed, fixed_to_double. rewrite SCALE_value.
  replace (IZR n / 65536 * 65536) with (IZR n) by (field; lra).
  rewrite truncate_IZR. apply wrap_int_small, Hn.
Qed.

Lemma fixed_double_fixed_witness :
  (- 2 ^ 31 <= -327680 < 2 ^ 31)%Z /\
  double_to_fixed (fixed_to_double (-327680)) = (-327680)%Z.
Proof.
  assert (H : (- 2 ^ 31 <= -327680 < 2 ^ 31)%Z) by lia.
  split; [exact H | exact (fixed_double_fixed (-327680) H)].
Defined.

(** X21. For a number of magnitude below 32768, the round trip through
    Q16.16 moves it towards zero by less than [1/65536], and the fixed-point
    value stays inside 32 bits. *)
Theorem double_fixed_double (val : R) :
  -32768 < val < 32768 ->
  let back := fixed_to_double (double_to_fixed val) in
  (- 2 ^ 31 < double_to_fixed val < 2 ^ 31)%Z /\
  Rabs (val - back) < 1 / 65536 /\
  (0 <= val -> 0 <= back <= val) /\
  (val <= 0 -> val <= back <= 0).
Proof.
  intros Hv back.
  destruct (truncate_bounds (val * SCALE)) as [Hpos Hneg].
  rewrite SCALE_value in *.
  assert (Hrange : (- 2 ^ 31 < truncate (val * 65536) < 2 ^ 31)%Z).
  { change (- 2 ^ 31)%Z with (-2147483648)%Z. change (2 ^ 31)%Z with 2147483648%Z.
    destruct (Rle_dec 0 val) as [H0 | H0].
    - specialize (Hpos ltac:(lra)). split; apply lt_IZR; lra.
    - specialize (Hneg ltac:(lra)). split; apply lt_IZR; lra. }
  assert (Hfix : double_to_fixed val = truncate (val * 65536)).
  { unfold double_to_fixed. rewrite SCALE_value. apply wrap_int_small. lia. }
  assert (Hback : back * 65536 = IZR (truncate (val * 65536))).
  { unfold back, fixed_to_double. rewrite Hfix, SCALE_value. field. }
  split; [rewrite Hfix; exact Hrange |].
  split; [| split].
  - apply Rabs_def1.
    + destruct (Rle_dec 0 val) as [H0 | H0];
        [specialize (Hpos ltac:(lra)) | specialize (Hneg ltac:(lra))]; lra.
    + destruct (Rle_dec 0 val) as [H0 | H0];
        [specialize (Hpos ltac:(lra)) | specialize (Hneg ltac:(lra))]; lra.
  - intros H0. specialize (Hpos ltac:(lra)).
    assert (0 <= IZR (truncate (val * 65536))).
    { apply IZR_le. assert (-1 < truncate (val * 65536))%Z by (apply lt_IZR; lra). lia. }
    lra.
  - intros H0. specialize (Hneg ltac:(lra)).
    assert (IZR (truncate (val * 65536)) <= 0).
    { apply IZR_le. assert (truncate (val * 65536) < 1)%Z by (apply lt_IZR; lra). lia. }
    lra.
Qed.

Lemma double_fixed_double_witness :
  -32768 < 5 < 32768 /\
  Rabs (5 - fixed_to_double (double_to_fixed 5)) < 1 / 65536.
Proof.
  assert (H : -32768 < 5 < 32768) by lra.
  split; [exact H | exact (proj1 (proj2 (double_fixed_double 5 H)))].
Defined.

(** ** The reflected ray *)

Lemma Vec3_normalize_of_unit (u : Vec3) : Vec3_dot u u = 1 -> Vec3_normalize u = u.
Proof.
  intros Hu.
  assert (Hl : Vec3_length u = 1) by (apply Vec3_unit_dot, Hu).
  unfold Vec3_normalize. rewrite Hl.
  destruct (Rgt_dec 1 0) as [_ | H]; [| lra].
  unfold Vec3_div. apply Vec3_eq; simpl; field.
Qed.

(** X22. At a hit of a ray of unit direction on a sphere of non-zero radius,
    the view direction of [trace] is the reversed direction of the ray, and
    the ray that [trace] follows for the reflection starts at the hit point
    with the unit direction [reflect(d, normal)]: its component along the
    normal is the opposite of that of the incoming ray.  When the ray met the
    side of the sphere that faces it, the reflected ray does not hit the
    sphere it leaves. *)
Theorem reflect_ray_mirror (v : variant) (s : Sphere) (ray : Ray) (t : R) :
  unit_direction ray -> Sphere_intersect v s ray = Some t -> radius s <> 0 ->
  let hit_point := Ray_at ray t in
  let normal := Sphere_getNormal s hit_point in
  let view_dir := Vec3_normalize (Vec3_sub (origin ray) hit_point) in
  let r := reflect_ray hit_point normal view_dir in
  view_dir = Vec3_mul (direction ray) (-1) /\
  origin r = hit_point /\
  direction r = Vec3_reflect (direction ray) normal /\
  unit_direction r /\
  Vec3_dot (direction r) normal = - Vec3_dot (direction ray) normal /\
  (Vec3_dot (direction ray) normal <= 0 -> Sphere_intersect v s r = None).
Proof.
  intros Hu Hs Hr hit_point normal view_dir r.
  pose proof (Sphere_intersect_above_EPS v s ray t Hs) as Ht.
  pose proof EPS_pos as Heps.
  destruct (hit_normal_unit v s ray t Hu Hs Hr) as [_ Hn]. fold hit_point normal in Hn.
  assert (Hview : view_dir = Vec3_mul (direction ray) (-1)).
  { unfold view_dir, hit_point.
    replace (Vec3_sub (origin ray) (Ray_at ray t))
      with (Vec3_mul (Vec3_mul (direction ray) (-1)) t)
      by (unfold Vec3_sub, Ray_at, Vec3_add, Vec3_mul; apply Vec3_eq; simpl; ring).
    rewrite Vec3_normalize_mul by lra.
    rewrite Vec3_normalize_opp, Vec3_normalize_of_unit by exact Hu. reflexivity. }
  assert (Hback : Vec3_mul view_dir (-1) = direction ray).
  { rewrite Hview. unfold Vec3_mul. apply Vec3_eq; simpl; ring. }
  assert (Hunit : Vec3_dot (Vec3_reflect (direction ray) normal)
                    (Vec3_reflect (direction ray) normal) = 1).
  { apply Vec3_unit_dot. rewrite Vec3_reflect_length by exact Hn.
    apply Vec3_unit_dot, Hu. }
  assert (Hdir : direction r = Vec3_reflect (direction ray) normal).
  { unfold r, reflect_ray, Ray_new. simpl. rewrite Hback.
    apply Vec3_normalize_of_unit, Hunit. }
  split; [exact Hview |]. split; [reflexivity |]. split; [exact Hdir |].
  assert (Hur : unit_direction r) by (unfold unit_direction; rewrite Hdir; exact Hunit).
  assert (Hdot : Vec3_dot (direction r) normal = - Vec3_dot (direction ray) normal)
    by (rewrite Hdir; apply Vec3_reflect_dot, Hn).
  split; [exact Hur |]. split; [exact Hdot |].
  intros Hfront. apply leaving_no_hit; [exact Hur | |].
  - change (origin r) with hit_point. right. symmetry.
    apply quadratic_root_on_sphere.
    eapply Sphere_intersect_is_root; eassumption.
  - change (origin r) with hit_point.
    destruct (hit_normal_unit v s ray t Hu Hs Hr) as [Hnz _]. fold hit_point in Hnz.
    destruct (Vec3_normalize_nonzero _ Hnz) as [Hlen Hnorm].
    fold (Sphere_getNormal s hit_point) in Hnorm. fold normal in Hnorm.
    set (L := Vec3_length (Vec3_sub hit_point (center s))) in *.
    replace (Vec3_dot (Vec3_sub hit_point (center s)) (direction r))
      with (L * Vec3_dot (direction r) normal).
    + rewrite Hdot. nra.
    + rewrite Hnorm. unfold Vec3_dot, Vec3_div. simpl. field. lra.
Qed.

Lemma reflect_ray_mirror_witness :
  (unit_direction axis_ray /\
   Sphere_intersect optimized unit_sphere axis_ray = Some 4 /\
   radius unit_sphere <> 0) /\
  Vec3_normalize (Vec3_sub (origin axis_ray) (Ray_at axis_ray 4))
  = Vec3_mul (direction axis_ray) (-1).
Proof.
  assert (Hr : radius unit_sphere <> 0) by (simpl; lra).
  split.
  - split; [exact axis_ray_unit |]. split; [apply axis_ray_hits_at_4 | exact Hr].
  - exact (proj1 (reflect_ray_mirror optimized unit_sphere axis_ray 4 axis_ray_unit
                    (axis_ray_hits_at_4 optimized) Hr)).
Defined.

(** ** Window events *)

Lemma handleEvents_step (Q K E : Z) (e : SDL_Event) (rest : list SDL_Event) :
  handleEvents Q K E (e :: rest)
  = if closing_event Q K E e then (false, rest) else handleEvents Q K E rest.
Proof.
  unfold closing_event. cbn [handleEvents].
  destruct (event_type e =? Q)%Z; [reflexivity |].
  destruct ((event_type e =? K)%Z && (keysym_sym e =? E)%Z); reflexivity.
Qed.

(** X23. [handleEvents] returns [false] exactly when a pending event is a
    window close or an escape key-down.  It takes the events up to and with
    the first such event off the queue and leaves the later ones; when it
    returns [true] the queue is empty. *)
Theorem handleEvents_closing (SDL_QUIT SDL_KEYDOWN SDLK_ESCAPE : Z)
    (queue : list SDL_Event) :
  (fst (handleEvents SDL_QUIT SDL_KEYDOWN SDLK_ESCAPE queue) = false <->
   exists e, In e queue /\ closing_event SDL_QUIT SDL_KEYDOWN SDLK_ESCAPE e = true) /\
  (forall pre e post,
     queue = pre ++ e :: post ->
     (forall e', In e' pre ->
        closing_event SDL_QUIT SDL_KEYDOWN SDLK_ESCAPE e' = false) ->
     closing_event SDL_QUIT SDL_KEYDOWN SDLK_ESCAPE e = true ->
     handleEvents SDL_QUIT SDL_KEYDOWN SDLK_ESCAPE queue = (false, post)) /\
  (fst (handleEvents SDL_QUIT SDL_KEYDOWN SDLK_ESCAPE queue) = true ->
   snd (handleEvents SDL_QUIT SDL_KEYDOWN SDLK_ESCAPE queue) = []).
Proof.
  split; [| split].
  - induction queue as [| e rest IH].
    + simpl. split; [discriminate | intros (e & [] & _)].
    + rewrite handleEvents_step.
      destruct (closing_event SDL_QUIT SDL_KEYDOWN SDLK_ESCAPE e) eqn:He.
      * split; [intros _; exists e; split; [left; reflexivity | exact He]
               | reflexivity].
      * rewrite IH. split.
        -- intros (e' & Hin & He'). exists e'. split; [right; exact Hin | exact He'].
        -- intros (e' & [<- | Hin] & He'); [congruence | eauto].
  - intros pre. revert queue.
    induction pre as [| p pre IH]; intros queue e post -> Hpre He.
    + simpl app. rewrite handleEvents_step, He. reflexivity.
    + simpl app. rewrite handleEvents_step.
      rewrite (Hpre p (or_introl eq_refl)).
      apply (IH _ e post eq_refl); [| exact He].
      intros e' Hin. apply Hpre. right. exact Hin.
  - induction queue as [| e rest IH]; [reflexivity |].
    rewrite handleEvents_step.
    destruct (closing_event SDL_QUIT SDL_KEYDOWN SDLK_ESCAPE e); [discriminate | exact IH].
Qed.

Lemma handleEvents_closing_witness :
  ([mkEvent 1024 0; mkEvent 768 97; mkEvent 768 27; mkEvent 256 0]
   = [mkEvent 1024 0; mkEvent 768 97] ++ mkEvent 768 27 :: [mkEvent 256 0] /\
   (forall e', In e' [mkEvent 1024 0; mkEvent 768 97] ->
      closing_event 256 768 27 e' = false) /\
   closing_event 256 768 27 (mkEvent 768 27) = true) /\
  handleEvents 256 768 27
    [mkEvent 1024 0; mkEvent 768 97; mkEvent 768 27; mkEvent 256 0]
  = (false, [mkEvent 256 0]).
Proof.
  assert (Hq : [mkEvent 1024 0; mkEvent 768 97; mkEvent 768 27; mkEvent 256 0]
               = [mkEvent 1024 0; mkEvent 768 97] ++ mkEvent 768 27 :: [mkEvent 256 0])
    by reflexivity.
  assert (Hpre : forall e', In e' [mkEvent 1024 0; mkEvent 768 97] ->
                   closing_event 256 768 27 e' = false).
  { intros e' [<- | [<- | []]]; reflexivity. }
  assert (He : closing_event 256 768 27 (mkEvent 768 27) = true) by reflexivity.
  split; [exact (conj Hq (conj Hpre He)) |].
  exact (proj1 (proj2 (handleEvents_closing 256 768 27 _)) _ _ _ Hq Hpre He).
Defined.
